(** * A shallow embedding of go-onc/xdr (go.e43.eu/xdr)

    The wire layer ([encoder] / [decoder] of internal/coder), the codec tree
    built by the registry (primitive, string, array, slice, map, optional,
    pointer, struct and union codecs) and the tag parser of internal/tags.

    Bytes on the wire are [Z] values in [0, 256).  An encoder writes into an
    in-memory buffer (the [bytes.Buffer] of [Coder.Marshal]), which never
    fails: encoding is a list of the bytes written so far together with the
    error returned, if any.  A decoder reads from an in-memory stream (the
    [bytes.Reader] of [Coder.Unmarshal]): decoding returns the value left in
    the destination slot, the error returned and the unread rest of the
    stream. *)

From Stdlib Require Import ZArith Lia Bool Ascii String.
From stdpp Require Import base list strings.
Import ListNotations.

Open Scope Z_scope.
Set Warnings "-register-all".

(** ** Errors (internal/errors/errors.go) *)

Inductive xerror :=
| ErrLengthExceedsMax
| ErrLengthExceedsPlatformLimit
| ErrLengthIncorrect
| ErrUnionSwitchArmUndefined
| ErrNotPointer
| ErrInvalidValue
| ErrNilPointer
| LengthError (Actual Max : Z)           (** [errors.LengthError] *)
| InvalidTypeError                       (** [errors.InvalidTypeError{t}] *)
| InvalidTagForTypeError                 (** [errors.InvalidTagForTypeError{t, tag}] *)
| FieldError (Underlying : xerror)       (** [errors.FieldError]; the path text is not kept *)
| ErrorString (msg : string)             (** [fmt.Errorf] / [errors.New] at codec construction *)
| EOF                                    (** [io.EOF] *)
| ErrUnexpectedEOF                       (** [io.ErrUnexpectedEOF] *)
| ErrWrongShape.                         (** model only: a value that is not of the codec's Go type *)

(** [maxInt] on a 64-bit platform. *)
Definition maxInt : Z := 2 ^ 63 - 1.
Definition MaxUint32 : Z := 2 ^ 32 - 1.

(** [errors.WithFieldError]: wraps once; an existing [FieldError] only gets
    a longer path. *)
Definition WithFieldError (err : option xerror) : option xerror :=
  match err with
  | None => None
  | Some (FieldError u) => Some (FieldError u)
  | Some e => Some (FieldError e)
  end.

Definition xerror_eq_dec (a b : xerror) : {a = b} + {a <> b}.
Proof. decide equality; try apply Z.eq_dec; apply String.string_dec. Defined.

(** [errors.Is(err, target)] for a sentinel [target]: equality, the
    [LengthError.Is] method, and unwrapping of [FieldError]. *)
Fixpoint errors_Is (err target : xerror) : bool :=
  if xerror_eq_dec err target then true else
  match err with
  | LengthError a m =>
      match target with
      | ErrLengthExceedsMax => a >? m
      | ErrLengthExceedsPlatformLimit => a >? maxInt
      | _ => false
      end
  | FieldError u => errors_Is u target
  | _ => false
  end.

(** ** Wire layer: the encoder (part_013, [encoder]) *)

(** What an encoding call leaves behind: the bytes written and the error. *)
Definition W : Type := (list Z * option xerror)%type.

Definition wret : W := ([], None).
Definition wfail (e : xerror) : W := ([], Some e).
Definition wwrite (bs : list Z) : W := (bs, None).

(** [if err := m; err != nil { return err }; k] *)
Definition wseq (m : W) (k : W) : W :=
  match m with
  | (o, Some e) => (o, Some e)
  | (o, None) => (o ++ fst k, snd k)
  end.

Infix ">>>" := wseq (at level 60, right associativity).

(** Go's [byte(x)]: the low eight bits. *)
Definition byte_of (x : Z) : Z := Z.land x 255.

(** Go's integer conversions to w-bit unsigned and signed types. *)
Definition to_unsigned (w : Z) (x : Z) : Z := x mod 2 ^ w.
Definition to_signed (w : Z) (x : Z) : Z :=
  let m := x mod 2 ^ w in if m >=? 2 ^ (w - 1) then m - 2 ^ w else m.

Definition EncodeInt (i : Z) : W :=
  wwrite [byte_of (Z.shiftr i 24); byte_of (Z.shiftr i 16);
          byte_of (Z.shiftr i 8); byte_of i].

Definition EncodeUnsignedInt (i : Z) : W := EncodeInt (to_signed 32 i).

Definition EncodeBool (b : bool) : W := EncodeInt (if b then 1 else 0).

Definition EncodeHyper (i : Z) : W :=
  wwrite [byte_of (Z.shiftr i 56); byte_of (Z.shiftr i 48);
          byte_of (Z.shiftr i 40); byte_of (Z.shiftr i 32);
          byte_of (Z.shiftr i 24); byte_of (Z.shiftr i 16);
          byte_of (Z.shiftr i 8); byte_of i].

Definition EncodeUnsignedHyper (u : Z) : W := EncodeHyper (to_signed 64 u).

(** [pad[0:padding]] *)
Definition pad (n : Z) : list Z := repeat 0 (Z.to_nat n).

Definition EncodeFixedOpaque (buf : list Z) : W :=
  let padding := Z.land (4 - Z.land (Z.of_nat (length buf)) 3) 3 in
  wwrite buf >>> wwrite (pad padding).

Definition EncodeOpaque (buf : list Z) : W :=
  if Z.of_nat (length buf) >? MaxUint32
  then wfail (LengthError (Z.of_nat (length buf)) MaxUint32)
  else EncodeUnsignedInt (Z.of_nat (length buf)) >>> EncodeFixedOpaque buf.

(** A Go string is its sequence of bytes. *)
Definition EncodeFixedString (s : list Z) : W :=
  let padding := Z.land (4 - Z.land (Z.of_nat (length s)) 3) 3 in
  wwrite s >>> wwrite (pad padding).

Definition EncodeString (s : list Z) : W :=
  if Z.of_nat (length s) >? MaxUint32
  then wfail (LengthError (Z.of_nat (length s)) MaxUint32)
  else EncodeUnsignedInt (Z.of_nat (length s)) >>> EncodeFixedString s.

(** [EncodeFloat] / [EncodeDouble] write the IEEE-754 bit pattern. *)
Definition EncodeFloat (bits : Z) : W := EncodeUnsignedInt bits.
Definition EncodeDouble (bits : Z) : W := EncodeUnsignedHyper bits.

(** ** Wire layer: the decoder (part_013, [decoder]) *)

(** A decoding call: the value, the error, and the rest of the stream. *)
Definition D (A : Type) : Type := (A * option xerror * list Z)%type.

(** [io.ReadFull(r, buf)] with [len(buf) = n] over an in-memory reader:
    the bytes read, the rest of the stream and the error. *)
Definition ReadFull (n : nat) (src : list Z) : list Z * list Z * option xerror :=
  if decide (n <= length src)%nat then (take n src, drop n src, None)
  else (src, [], Some (match src with [] => EOF | _ => ErrUnexpectedEOF end)).

(** [buf] of length [n], zero-initialised, whose prefix was filled by a read. *)
Definition fill (n : nat) (read : list Z) : list Z :=
  read ++ repeat 0 (n - length read).

(** Big-endian value of a byte list. *)
Definition be_value (bs : list Z) : Z := fold_left (fun acc b => acc * 256 + b) bs 0.

Definition DecodeUnsignedInt (src : list Z) : D Z :=
  let '(b, rest, err) := ReadFull 4 src in (be_value (fill 4 b), err, rest).

Definition DecodeInt (src : list Z) : D Z :=
  let '(u, err, rest) := DecodeUnsignedInt src in (to_signed 32 u, err, rest).

Definition DecodeBool (src : list Z) : D bool :=
  let '(i, err, rest) := DecodeUnsignedInt src in
  if i =? 0 then (false, err, rest)
  else if i =? 1 then (true, err, rest)
  else match err with
       | Some e => (false, Some e, rest)
       | None => (false, Some ErrInvalidValue, rest)
       end.

Definition DecodeUnsignedHyper (src : list Z) : D Z :=
  let '(b, rest, err) := ReadFull 8 src in (be_value (fill 8 b), err, rest).

Definition DecodeHyper (src : list Z) : D Z :=
  let '(u, err, rest) := DecodeUnsignedHyper src in (to_signed 64 u, err, rest).

Definition DecodeFloat (src : list Z) : D Z := DecodeUnsignedInt src.
Definition DecodeDouble (src : list Z) : D Z := DecodeUnsignedHyper src.

(** [DecodeOpaque(maxLen)]: [None] is the nil slice.  Note the source:
    [_, err = io.ReadFull(d.r, buf); return buf[0:int(l)], nil]. *)
Definition DecodeOpaque (maxLen : Z) (src : list Z) : D (option (list Z)) :=
  let '(l, err, rest) := DecodeUnsignedInt src in
  match err with
  | Some e => (None, Some e, rest)
  | None =>
      if l =? 0 then (None, None, rest)
      else if l >? maxLen then (None, Some (LengthError l maxLen), rest)
      else
        let lPad := Z.land (l + 3) (Z.lnot 3) in
        let '(read, rest', _) := ReadFull (Z.to_nat lPad) rest in
        let buf := fill (Z.to_nat lPad) read in
        (Some (take (Z.to_nat l) buf), None, rest')
  end.

(** [DecodeFixedOpaque(buf)]: fills the caller's [buf] (whose old contents
    survive past a short read), then discards the padding. *)
Definition DecodeFixedOpaque (buf : list Z) (src : list Z) : D (list Z) :=
  let '(read, rest, err) := ReadFull (length buf) src in
  let buf' := read ++ drop (length read) buf in
  match err with
  | Some e => (buf', Some e, rest)
  | None =>
      let n := Z.of_nat (length read) in
      let n := Z.land (n + 3) (Z.lnot 3) - n in
      if n =? 0 then (buf', None, rest)
      else let '(_, rest', err') := ReadFull (Z.to_nat n) rest in (buf', err', rest')
  end.

Definition DecodeString (maxLen : Z) (src : list Z) : D (list Z) :=
  let '(b, err, rest) := DecodeOpaque maxLen src in
  match err with
  | Some e => ([], Some e, rest)
  | None => (default [] b, err, rest)
  end.

Definition DecodeFixedString (len : Z) (src : list Z) : D (list Z) :=
  DecodeFixedOpaque (repeat 0 (Z.to_nat len)) src.

(** ** Go values *)

(** A value held by a Go variable of a type the codecs handle.  Integers of
    every kind are [VInt] (within the range of their kind); floating-point
    values are their IEEE-754 bit patterns; a map is its entries in
    iteration order; a pointer owns its pointee ([None] is nil). *)
Inductive value :=
| VBool (b : bool)
| VInt (i : Z)
| VFloat32 (bits : Z)
| VFloat64 (bits : Z)
| VComplex64 (re im : Z)
| VComplex128 (re im : Z)
| VString (s : list Z)
| VArray (xs : list value)
| VSlice (isnil : bool) (xs : list value)
| VMap (kvs : list (value * value))
| VPtr (p : option value)
| VStruct (fs : list value).

(** IEEE-754 classification of bit patterns. *)
Definition is_nan32 (x : Z) : bool :=
  (Z.land (Z.shiftr x 23) 255 =? 255) && negb (Z.land x (2 ^ 23 - 1) =? 0).
Definition is_nan64 (x : Z) : bool :=
  (Z.land (Z.shiftr x 52) 2047 =? 2047) && negb (Z.land x (2 ^ 52 - 1) =? 0).
Definition is_zero32 (x : Z) : bool := Z.land x (2 ^ 31 - 1) =? 0.
Definition is_zero64 (x : Z) : bool := Z.land x (2 ^ 63 - 1) =? 0.

(** Go's [==] on floats. *)
Definition feq32 (a b : Z) : bool :=
  negb (is_nan32 a) && negb (is_nan32 b) && ((a =? b) || (is_zero32 a && is_zero32 b)).
Definition feq64 (a b : Z) : bool :=
  negb (is_nan64 a) && negb (is_nan64 b) && ((a =? b) || (is_zero64 a && is_zero64 b)).

Fixpoint list_eqb {A} (eqb : A -> A -> bool) (l1 l2 : list A) : bool :=
  match l1, l2 with
  | [], [] => true
  | x :: r1, y :: r2 => eqb x y && list_eqb eqb r1 r2
  | _, _ => false
  end.

(** Go's [==] on the map keys a decoder builds ([SetMapIndex] below).  Go
    compares pointers by address; every non-nil pointer a decoder stores is
    a fresh [reflect.New], so two of them are never equal. *)
Fixpoint go_eqb (a b : value) : bool :=
  match a, b with
  | VBool x, VBool y => Bool.eqb x y
  | VInt x, VInt y => x =? y
  | VFloat32 x, VFloat32 y => feq32 x y
  | VFloat64 x, VFloat64 y => feq64 x y
  | VComplex64 r1 i1, VComplex64 r2 i2 => feq32 r1 r2 && feq32 i1 i2
  | VComplex128 r1 i1, VComplex128 r2 i2 => feq64 r1 r2 && feq64 i1 i2
  | VString s, VString t => list_eqb Z.eqb s t
  | VArray xs, VArray ys => list_eqb go_eqb xs ys
  | VStruct xs, VStruct ys => list_eqb go_eqb xs ys
  | VPtr None, VPtr None => true
  | VPtr (Some _), VPtr (Some _) => false
  | _, _ => false
  end.

(** [v.SetMapIndex(k, x)]: replaces the entry of an equal key, else adds one. *)
Definition SetMapIndex (k x : value) (kvs : list (value * value)) : list (value * value) :=
  if existsb (fun '(k', _) => go_eqb k' k) kvs
  then map (fun '(k', x') => if go_eqb k' k then (k', x) else (k', x')) kvs
  else kvs ++ [(k, x)].

(** ** The codec tree (internal/coder) *)

Inductive width := W8 | W16 | W32.
Definition width_bits (w : width) : Z := match w with W8 => 8 | W16 => 16 | W32 => 32 end.

Inductive switchKind := switchKindBool | switchKindInt | switchKindUint.

(** One constructor per codec type of the source.  A struct [field] is the
    pair [(index, codec)].  The [reflect.Type]s a codec keeps to allocate
    fresh values ([sliceCodec.t], [mapCodec.kt]/[vt], [ptrCodec.elemt]) are
    represented by the zero value of that type. *)
Inductive codec :=
| boolCodec
| intCodec (w : width)                    (** int8Codec, int16Codec, int32Codec *)
| uintCodec (w : width)                   (** uint8Codec, uint16Codec, uint32Codec *)
| hyperCodec
| uhyperCodec
| floatCodec
| doubleCodec
| complex64Codec
| complex128Codec
| fixedStringCodec (len : Z)
| varStringCodec (maxlen origMax : Z)
| opaqueArrayCodec (len : Z)
| arrayCodec (elem : codec) (len : Z)
| opaqueSliceCodec (maxlen origMax : Z)
| sliceCodec (elem : codec) (elemZero : value) (maxlen origMax : Z)
| mapCodec (keyCodec valueCodec : codec) (keyZero valueZero : value) (maxlen origMax : Z)
| optCodec (elem : codec)
| ptrCodec (elem : codec) (elemZero : value)
| structCodec (fields : list (nat * codec))
| unionCodec (switchField : nat * codec) (bodyFields : list (option (nat * codec)))
             (cases : list (Z * Z)) (defaultCase : Z) (kind : switchKind)
| errorCodec (err : xerror).

(** [uint8] elements of a byte array or slice. *)
Fixpoint bytes_of (xs : list value) : option (list Z) :=
  match xs with
  | [] => Some []
  | VInt b :: r => match bytes_of r with Some bs => Some (b :: bs) | None => None end
  | _ :: _ => None
  end.

Definition of_bytes (bs : list Z) : list value := map VInt bs.

(** The [uint32] switch value of a union ([swv.Bool()], [swv.Uint()], [swv.Int()]). *)
Definition switch_value (k : switchKind) (swv : value) : option Z :=
  match k, swv with
  | switchKindBool, VBool b => Some (if b then 1 else 0)
  | switchKindUint, VInt u => Some (to_unsigned 32 u)
  | switchKindInt, VInt i => Some (to_unsigned 32 i)
  | _, _ => None
  end.

(** [c.cases[swVal]] *)
Fixpoint lookup_case (s : Z) (cases : list (Z * Z)) : option Z :=
  match cases with
  | [] => None
  | (k, i) :: r => if k =? s then Some i else lookup_case s r
  end.

Definition case_field (s : Z) (cases : list (Z * Z)) (defaultCase : Z) : Z :=
  match lookup_case s cases with Some i => i | None => defaultCase end.

(** [for _, x := range xs { if err := enc(x); err != nil { return err } }] *)
Fixpoint encode_each (enc : value -> W) (xs : list value) : W :=
  match xs with
  | [] => wret
  | x :: r => enc x >>> encode_each enc r
  end.

Fixpoint encode_pairs (enck encv : value -> W) (kvs : list (value * value)) : W :=
  match kvs with
  | [] => wret
  | (k, x) :: r => enck k >>> encv x >>> encode_pairs enck encv r
  end.

(** The loop of [structCodec.encodeReflect] over [c.fields]. *)
Fixpoint encode_fields (enc : codec -> value -> W) (fs : list (nat * codec)) (vs : list value) : W :=
  match fs with
  | [] => wret
  | (i, fc) :: r =>
      (match vs !! i with
       | Some x => let '(o, err) := enc fc x in (o, WithFieldError err)
       | None => wfail ErrWrongShape
       end) >>> encode_fields enc r vs
  end.

(** [f := c.bodyFields[caseField]; f.encode(e, v)] *)
Fixpoint encode_arm (enc : codec -> value -> W) (body : list (option (nat * codec))) (k : Z)
    (vs : list value) : W :=
  match body with
  | [] => wfail ErrWrongShape
  | o :: r =>
      if k =? 0 then
        match o with
        | Some (fi, fc) =>
            match vs !! fi with
            | Some x => let '(out, err) := enc fc x in (out, WithFieldError err)
            | None => wfail ErrWrongShape
            end
        | None => wfail ErrWrongShape
        end
      else encode_arm enc r (k - 1) vs
  end.

(** [for i := 0; i < l; i++ { if err := dec(v.Index(i)); err != nil { return err } }]:
    decodes into each destination slot in turn; on an error, the slots not
    yet reached keep their contents. *)
Fixpoint decode_each (dec : value -> list Z -> D value) (ds : list value) (src : list Z)
    : D (list value) :=
  match ds with
  | [] => ([], None, src)
  | d :: ds' =>
      let '(x, err, rest) := dec d src in
      match err with
      | Some e => (x :: ds', Some e, rest)
      | None => let '(xs, err', rest') := decode_each dec ds' rest in (x :: xs, err', rest')
      end
  end.

(** The loop of [mapCodec.Decode]: [n] key/value pairs, each decoded into a
    fresh zero value, then stored with [SetMapIndex]. *)
Fixpoint decode_pairs (deck decv : value -> list Z -> D value) (kz vz : value) (n : nat)
    (m : list (value * value)) (src : list Z) : D (list (value * value)) :=
  match n with
  | O => (m, None, src)
  | S n' =>
      let '(k, errk, r1) := deck kz src in
      match errk with
      | Some e => (m, Some e, r1)
      | None =>
          let '(x, errv, r2) := decv vz r1 in
          match errv with
          | Some e => (m, Some e, r2)
          | None => decode_pairs deck decv kz vz n' (SetMapIndex k x m) r2
          end
      end
  end.

(** The loop of [structCodec.Decode] over [c.fields]. *)
Fixpoint decode_fields (dec : codec -> value -> list Z -> D value) (fs : list (nat * codec))
    (ds : list value) (src : list Z) : D (list value) :=
  match fs with
  | [] => (ds, None, src)
  | (i, fc) :: r =>
      match ds !! i with
      | None => (ds, Some ErrWrongShape, src)
      | Some d =>
          let '(x, err, rest) := dec fc d src in
          let ds' := <[i := x]> ds in
          match err with
          | Some e => (ds', WithFieldError (Some e), rest)
          | None => decode_fields dec r ds' rest
          end
      end
  end.

(** [f := c.bodyFields[caseField]; f.decode(d, v)] *)
Fixpoint decode_arm (dec : codec -> value -> list Z -> D value) (body : list (option (nat * codec)))
    (k : Z) (ds : list value) (src : list Z) : D (list value) :=
  match body with
  | [] => (ds, Some ErrWrongShape, src)
  | o :: r =>
      if k =? 0 then
        match o with
        | Some (fi, fc) =>
            match ds !! fi with
            | Some d =>
                let '(x, err, rest) := dec fc d src in (<[fi := x]> ds, WithFieldError err, rest)
            | None => (ds, Some ErrWrongShape, src)
            end
        | None => (ds, Some ErrWrongShape, src)
        end
      else decode_arm dec r (k - 1) ds src
  end.

(** [reflect.ValueOf(s)] of the []byte returned by [DecodeOpaque]. *)
Definition slice_of_opaque (s : option (list Z)) : value :=
  match s with None => VSlice true [] | Some bs => VSlice false (of_bytes bs) end.

Section Codecs.

(** The bits of [float32(float64(x))]: the [float32] codecs pass through
    [reflect.Value.Float] / [SetFloat], which convert via [float64].  The
    result for NaN payloads is platform dependent, so it stays abstract. *)
Variable f32_conv : Z -> Z.

Fixpoint Encode (c : codec) (v : value) {struct c} : W :=
  match c, v with
  | boolCodec, VBool b => EncodeBool b
  | intCodec _, VInt i => EncodeInt (to_signed 32 i)
  | uintCodec _, VInt u => EncodeUnsignedInt (to_unsigned 32 u)
  | hyperCodec, VInt i => EncodeHyper i
  | uhyperCodec, VInt u => EncodeUnsignedHyper u
  | floatCodec, VFloat32 f => EncodeFloat (f32_conv f)
  | doubleCodec, VFloat64 f => EncodeDouble f
  | complex64Codec, VComplex64 re im => EncodeFloat (f32_conv re) >>> EncodeFloat (f32_conv im)
  | complex128Codec, VComplex128 re im => EncodeDouble re >>> EncodeDouble im
  | fixedStringCodec len, VString s =>
      if Z.of_nat (length s) =? len then EncodeFixedString s else wfail ErrLengthIncorrect
  | varStringCodec maxlen origMax, VString s =>
      if Z.of_nat (length s) <=? maxlen then EncodeString s
      else wfail (LengthError (Z.of_nat (length s)) origMax)
  | opaqueArrayCodec _, VArray xs =>
      match bytes_of xs with Some s => EncodeFixedOpaque s | None => wfail ErrWrongShape end
  | arrayCodec elem _, VArray xs => encode_each (Encode elem) xs
  | opaqueSliceCodec maxlen origMax, VSlice _ xs =>
      match bytes_of xs with
      | Some s =>
          if Z.of_nat (length s) >? maxlen
          then wfail (LengthError (Z.of_nat (length s)) origMax)
          else EncodeOpaque s
      | None => wfail ErrWrongShape
      end
  | sliceCodec elem _ maxlen origMax, VSlice _ xs =>
      let l := Z.of_nat (length xs) in
      if l >? maxlen then wfail (LengthError l origMax)
      else EncodeUnsignedInt l >>> encode_each (Encode elem) xs
  | mapCodec kc vc _ _ maxlen origMax, VMap kvs =>
      let l := Z.of_nat (length kvs) in
      if l >? maxlen then wfail (LengthError l origMax)
      else EncodeUnsignedInt l >>> encode_pairs (Encode kc) (Encode vc) kvs
  | optCodec elem, VPtr p =>
      match p with
      | None => EncodeBool false
      | Some _ => EncodeBool true >>> Encode elem v
      end
  | ptrCodec elem _, VPtr p =>
      match p with
      | None => wfail ErrNilPointer
      | Some x => Encode elem x
      end
  | structCodec fields, VStruct vs => encode_fields Encode fields vs
  | unionCodec (si, sc) body cases dflt k, VStruct vs =>
      match vs !! si with
      | None => wfail ErrWrongShape
      | Some swv =>
          let '(o1, err1) := Encode sc swv in
          match err1 with
          | Some e => (o1, WithFieldError (Some e))
          | None =>
              match switch_value k swv with
              | None => (o1, Some ErrWrongShape)
              | Some swVal =>
                  let caseField := case_field swVal cases dflt in
                  if caseField =? -1 then (o1, WithFieldError (Some ErrUnionSwitchArmUndefined))
                  else let '(o2, err2) := encode_arm Encode body caseField vs in (o1 ++ o2, err2)
              end
          end
      end
  | errorCodec e, _ => wfail e
  | _, _ => wfail ErrWrongShape
  end.

(** [Decode(d, v)]: [v] is the destination slot; the result holds what the
    slot contains afterwards.  This is the default build (without the
    [nounsafe] tag), where struct fields and array and slice elements are
    decoded through [decodeUnsafe]: an [optCodec] (only ever built for a
    struct field or below one) is decoded by [optCodec.decodeUnsafe]. *)
Fixpoint Decode (c : codec) (v : value) (src : list Z) {struct c} : D value :=
  match c with
  | boolCodec => let '(b, err, r) := DecodeBool src in (VBool b, err, r)
  | intCodec w =>
      let '(i, err, r) := DecodeInt src in (VInt (to_signed (width_bits w) i), err, r)
  | uintCodec w =>
      let '(i, err, r) := DecodeUnsignedInt src in (VInt (to_unsigned (width_bits w) i), err, r)
  | hyperCodec => let '(i, err, r) := DecodeHyper src in (VInt i, err, r)
  | uhyperCodec => let '(i, err, r) := DecodeUnsignedHyper src in (VInt i, err, r)
  | floatCodec => let '(f, err, r) := DecodeFloat src in (VFloat32 (f32_conv f), err, r)
  | doubleCodec => let '(f, err, r) := DecodeDouble src in (VFloat64 f, err, r)
  | complex64Codec =>
      let '(re, err, r1) := DecodeFloat src in
      match err with
      | Some e => (v, Some e, r1)
      | None =>
          let '(im, err', r2) := DecodeFloat r1 in
          match err' with
          | Some e => (v, Some e, r2)
          | None => (VComplex64 (f32_conv re) (f32_conv im), None, r2)
          end
      end
  | complex128Codec =>
      let '(re, err, r1) := DecodeDouble src in
      match err with
      | Some e => (v, Some e, r1)
      | None =>
          let '(im, err', r2) := DecodeDouble r1 in
          match err' with
          | Some e => (v, Some e, r2)
          | None => (VComplex128 re im, None, r2)
          end
      end
  | fixedStringCodec len => let '(s, err, r) := DecodeFixedString len src in (VString s, err, r)
  | varStringCodec maxlen origMax =>
      let '(s, err, r) := DecodeString maxlen src in
      (VString s, match err with Some (LengthError a _) => Some (LengthError a origMax) | e => e end, r)
  | opaqueArrayCodec _ =>
      match v with
      | VArray xs =>
          match bytes_of xs with
          | Some bs => let '(buf, err, r) := DecodeFixedOpaque bs src in (VArray (of_bytes buf), err, r)
          | None => (v, Some ErrWrongShape, src)
          end
      | _ => (v, Some ErrWrongShape, src)
      end
  | arrayCodec elem _ =>
      match v with
      | VArray ds => let '(xs, err, r) := decode_each (Decode elem) ds src in (VArray xs, err, r)
      | _ => (v, Some ErrWrongShape, src)
      end
  | opaqueSliceCodec maxlen _ =>
      let '(s, err, r) := DecodeOpaque maxlen src in (slice_of_opaque s, err, r)
  | sliceCodec elem z maxlen origMax =>
      let '(l, err, r) := DecodeUnsignedInt src in
      match err with
      | Some e => (v, Some e, r)
      | None =>
          if l =? 0 then (VSlice true [], None, r)
          else if l >? to_unsigned 32 maxlen then (v, Some (LengthError l origMax), r)
          else let '(xs, err', r') := decode_each (Decode elem) (repeat z (Z.to_nat l)) r in
               (VSlice false xs, err', r')
      end
  | mapCodec kc vc kz vz maxlen origMax =>
      let '(l, err, r) := DecodeUnsignedInt src in
      match err with
      | Some e => (v, Some e, r)
      | None =>
          if l >? to_unsigned 32 maxlen then (v, Some (LengthError l origMax), r)
          else let '(m, err', r') := decode_pairs (Decode kc) (Decode vc) kz vz (Z.to_nat l) [] r in
               (VMap m, err', r')
      end
  | optCodec elem =>
      (* [optCodec.decodeUnsafe] (part_006): a failed presence word leaves the slot as it was *)
      let '(b, err, r) := DecodeBool src in
      match err with
      | Some e => (v, Some e, r)
      | None => if b then Decode elem v r else (VPtr None, None, r)
      end
  | ptrCodec elem z => let '(x, err, r) := Decode elem z src in (VPtr (Some x), err, r)
  | structCodec fs =>
      match v with
      | VStruct ds => let '(ds', err, r) := decode_fields Decode fs ds src in (VStruct ds', err, r)
      | _ => (v, Some ErrWrongShape, src)
      end
  | unionCodec (si, sc) body cases dflt k =>
      match v with
      | VStruct ds =>
          match ds !! si with
          | None => (v, Some ErrWrongShape, src)
          | Some d =>
              let '(swv, err, r) := Decode sc d src in
              let ds1 := <[si := swv]> ds in
              match err with
              | Some e => (VStruct ds1, WithFieldError (Some e), r)
              | None =>
                  match switch_value k swv with
                  | None => (VStruct ds1, Some ErrWrongShape, r)
                  | Some swVal =>
                      let caseField := case_field swVal cases dflt in
                      if caseField =? -1
                      then (VStruct ds1, WithFieldError (Some ErrUnionSwitchArmUndefined), r)
                      else let '(ds2, err2, r2) := decode_arm Decode body caseField ds1 r in
                           (VStruct ds2, err2, r2)
                  end
              end
          end
      | _ => (v, Some ErrWrongShape, src)
      end
  | errorCodec e => (v, Some e, src)
  end.

End Codecs.

(** ** Go types and struct tags (internal/tags) *)

(** The Go types a codec can be derived for.  A struct field is its name, its
    type and the value of its [xdr:"..."] struct tag ([rtag.Get("xdr")],
    the empty string when the field has none).  Each constructor stands for
    the types of that kind that do not implement [xdrinterfaces.Marshaler]
    (their method set has no [MarshalXDR]/[UnmarshalXDR]); a type that does
    is encoded by its own methods and is not represented here. *)
Inductive gotype :=
| TBool | TInt | TInt8 | TInt16 | TInt32 | TInt64
| TUint | TUint8 | TUint16 | TUint32 | TUint64 | TUintptr
| TFloat32 | TFloat64 | TComplex64 | TComplex128
| TString
| TArray (n : Z) (elem : gotype)
| TSlice (elem : gotype)
| TMap (key elem : gotype)
| TPtr (elem : gotype)
| TStruct (fields : list (string * gotype * string))
| TInterface | TChan | TFunc.

(** [XDRTagKind] with the values carried by an entry. *)
Inductive tagent :=
| Noop
| Skip
| Opt
| Opaque
| UnionSwitch
| UnionDefault
| Len (n : Z)
| MaxLen (n : Z)
| UnionCases (vs : list Z).

(** [XDRTag]: the byte encoding of the source is a sequence of entries. *)
Definition XDRTag : Type := list tagent.

Definition Empty (t : XDRTag) : bool := match t with [] => true | _ => false end.
Definition Kind (t : XDRTag) : tagent := match t with e :: _ => e | [] => Noop end.
Definition Next (t : XDRTag) : XDRTag := tl t.

Definition is_Noop (e : tagent) : bool := match e with Noop => true | _ => false end.
Definition is_Skip (e : tagent) : bool := match e with Skip => true | _ => false end.

Fixpoint drop_noops (l : list tagent) : list tagent :=
  match l with
  | Noop :: r => drop_noops r
  | _ => l
  end.

(** [Trimmed]: drops the trailing [Noop] entries. *)
Definition Trimmed (t : XDRTag) : XDRTag := rev (drop_noops (rev t)).

(** ASCII helpers on Go strings (byte sequences). *)
Definition code (c : ascii) : Z := Z.of_nat (nat_of_ascii c).

(** [unicode.IsSpace] on the ASCII range. *)
Definition is_space (c : ascii) : bool :=
  let n := code c in (n =? 32) || ((9 <=? n) && (n <=? 13)).

Fixpoint trim_left (l : list ascii) : list ascii :=
  match l with
  | c :: r => if is_space c then trim_left r else l
  | [] => []
  end.

(** [strings.TrimSpace] (ASCII white space). *)
Definition TrimSpace (s : string) : string :=
  string_of_list_ascii (rev (trim_left (rev (trim_left (list_ascii_of_string s))))).

(** [strings.Split(s, sep)] for a one-byte separator. *)
Fixpoint split_on (sep : ascii) (l : list ascii) : list (list ascii) :=
  match l with
  | [] => [[]]
  | c :: r =>
      let parts := split_on sep r in
      if Ascii.eqb c sep then [] :: parts
      else match parts with p :: ps => (c :: p) :: ps | [] => [[c]] end
  end.

Definition Split (s : string) (sep : ascii) : list string :=
  map string_of_list_ascii (split_on sep (list_ascii_of_string s)).

Fixpoint has_prefix (p l : list ascii) : bool :=
  match p, l with
  | [], _ => true
  | a :: p', b :: l' => Ascii.eqb a b && has_prefix p' l'
  | _ :: _, [] => false
  end.

Definition HasPrefix (s p : string) : bool := has_prefix (list_ascii_of_string p) (list_ascii_of_string s).

(** [s[n:]] *)
Definition str_from (n : nat) (s : string) : string :=
  string_of_list_ascii (drop n (list_ascii_of_string s)).

Definition TrimPrefix (s p : string) : string :=
  if HasPrefix s p then str_from (String.length p) s else s.

(** [lower(c)] of strconv: [c | ('x' - 'X')]. *)
Definition lower (c : ascii) : Z := Z.lor (code c) 32.

(** The digit value the loop of [strconv.ParseUint] gives a byte. *)
Definition digit_of (c : ascii) : option Z :=
  let n := code c in
  if (48 <=? n) && (n <=? 57) then Some (n - 48)
  else if (97 <=? lower c) && (lower c <=? 122) then Some (lower c - 97 + 10)
  else None.

(** The digit loop of [strconv.ParseUint] with [base0 = true]: the value, or
    [None] on a syntax or range error; the flag records an underscore. *)
Fixpoint parse_digits (base : Z) (l : list ascii) (n : Z) (us : bool) : option (Z * bool) :=
  match l with
  | [] => Some (n, us)
  | c :: r =>
      if code c =? 95 then parse_digits base r n true
      else match digit_of c with
           | None => None
           | Some d =>
               if d >=? base then None
               else let n1 := n * base + d in
                    if n1 >? MaxUint32 then None else parse_digits base r n1 us
           end
  end.

(** The number-proper loop of [underscoreOK]; [saw] is one of ["^"], ["0"],
    ["_"], ["!"]. *)
Fixpoint underscore_loop (hex : bool) (saw : ascii) (l : list ascii) : bool :=
  match l with
  | [] => negb (Ascii.eqb saw "_"%char)
  | c :: r =>
      let n := code c in
      if ((48 <=? n) && (n <=? 57)) || (hex && (97 <=? lower c) && (lower c <=? 102))
      then underscore_loop hex "0"%char r
      else if n =? 95 then
        if Ascii.eqb saw "0"%char then underscore_loop hex "_"%char r else false
      else if Ascii.eqb saw "_"%char then false
      else underscore_loop hex "!"%char r
  end.

Definition underscoreOK (s : list ascii) : bool :=
  let s := match s with c :: r => if (code c =? 45) || (code c =? 43) then r else s | [] => [] end in
  match s with
  | c0 :: c1 :: r =>
      if (code c0 =? 48) && ((lower c1 =? 98) || (lower c1 =? 111) || (lower c1 =? 120))
      then underscore_loop (lower c1 =? 120) "0"%char r
      else underscore_loop false "^"%char s
  | _ => underscore_loop false "^"%char s
  end.

(** [strconv.ParseUint(s, 0, 32)]: base prefixes [0b], [0o], [0x], a
    leading [0] for octal, and underscores between digits. *)
Definition ParseUint32 (s0 : list ascii) : option Z :=
  match s0 with
  | [] => None
  | c0 :: r0 =>
      let '(base, s) :=
        if code c0 =? 48 then
          match r0 with
          | c1 :: _ :: _ =>
              if lower c1 =? 98 then (2, tl r0)
              else if lower c1 =? 111 then (8, tl r0)
              else if lower c1 =? 120 then (16, tl r0)
              else (8, r0)
          | _ => (8, r0)
          end
        else (10, s0) in
      match parse_digits base s 0 false with
      | None => None
      | Some (n, us) => if us && negb (underscoreOK s0) then None else Some n
      end
  end.

(** [parseU32]: [uint32(u64), err]; callers only use the value when [err]
    is nil. *)
Definition parseU32 (s : string) : option Z := ParseUint32 (list_ascii_of_string s).

(** [parseU32s]: comma-separated values. *)
Definition parseU32s (s : string) : option (list Z) :=
  fold_right (fun v acc => match parseU32 v, acc with
                           | Some u, Some us => Some (u :: us)
                           | _, _ => None
                           end)
             (Some []) (Split s ","%char).

(** The bytes a number accepted by [parseU32] can contain: digits, letters
    and underscores. *)
Definition tag_char (c : ascii) : bool :=
  (code c =? 95) || match digit_of c with Some _ => true | None => false end.

Definition validForUnionSwitch (t : gotype) : bool :=
  match t with
  | TBool | TInt | TInt8 | TInt16 | TInt32 | TInt64
  | TUint | TUint8 | TUint16 | TUint32 => true
  | _ => false
  end.

Definition canBeOpt (t : gotype) : bool :=
  match t with TInterface | TPtr _ => true | _ => false end.

(** [t.Elem()] for the kinds [ParseTag] descends through. *)
Definition Elem (t : gotype) : option gotype :=
  match t with
  | TArray _ e | TSlice e | TPtr e | TMap _ e => Some e
  | _ => None
  end.

Inductive IsInUnion := MaybeInUnion | NotInUnion | InUnion.

Definition IsInUnion_eqb (a b : IsInUnion) : bool :=
  match a, b with
  | MaybeInUnion, MaybeInUnion | NotInUnion, NotInUnion | InUnion, InUnion => true
  | _, _ => false
  end.

(** One part of the per-layer loop of [ParseTag]: the type reached and the
    tag built so far, or the error message (type names are left out of the
    messages). *)
Definition parse_part (t : gotype) (p : string) (xt : XDRTag) : string + (gotype * XDRTag) :=
  if String.eqb p EmptyString then inr (t, xt ++ [Noop])
  else if String.eqb p "opt" then
    if canBeOpt t then inr (t, xt ++ [Opt]) else inl "Type cannot be 'opt'"
  else if String.eqb p "opaque" then
    let '(t, xt) := match t with TArray _ e | TSlice e => (e, xt ++ [Noop]) | _ => (t, xt) end in
    match t with
    | TInt8 | TUint8 => inr (t, xt ++ [Opaque])
    | _ => inl "'opaque' label applied to a type which is not bytes"
    end
  else if HasPrefix p "len:" then
    match parseU32 (str_from 4 p) with
    | None => inl "Error parsing XDR `len:` tag"
    | Some len =>
        match t with
        | TArray _ _ => inl "Cannot apply `len:` tag to an array; just specify length directly"
        | TString | TSlice _ => inr (t, xt ++ [Len len])
        | _ => inl "Cannot apply `len:` tag; must be slice, string or map"
        end
    end
  else if HasPrefix p "maxlen:" then
    match parseU32 (str_from 7 p) with
    | None => inl "Error parsing XDR `maxlen:` tag"
    | Some len =>
        match t with
        | TString | TSlice _ => inr (t, xt ++ [MaxLen len])
        | _ => inl "Cannot apply `maxlen:` tag; must be slice, string or map"
        end
    end
  else inl "Unknown XDR tag".

(** [for i, n := 0, len(parts); i < n; i++ { ... }], descending one type
    level between parts. *)
Fixpoint parse_parts (t : gotype) (parts : list string) (xt : XDRTag) : string + XDRTag :=
  match parts with
  | [] => inr xt
  | p :: rest =>
      match parse_part t (TrimSpace p) xt with
      | inl e => inl e
      | inr (t', xt') =>
          match rest with
          | [] => inr xt'
          | _ :: _ =>
              match Elem t' with
              | Some t'' => parse_parts t'' rest xt'
              | None => inl "Trailing tags after reaching a type without elements"
              end
          end
      end
  end.

(** [ParseTag(t, stags, isUnion)]: the tag or the error, and the new
    [*isUnion]. *)
Definition ParseTag (t : gotype) (stags : string) (isUnion : IsInUnion)
    : (string + XDRTag) * IsInUnion :=
  let stags := TrimSpace stags in
  if String.eqb stags "-" then (inr [Skip], isUnion) else
  let parts := Split stags "/"%char in
  let finish (isUnion : IsInUnion) (xt : XDRTag) (parts : list string) :=
    (match parse_parts t parts xt with inl e => inl e | inr xt => inr (Trimmed xt) end, isUnion) in
  let p := hd EmptyString parts in
  if HasPrefix p "union:" then
    let parts := tl parts in
    if String.eqb p "union:switch" then
      if negb (IsInUnion_eqb isUnion MaybeInUnion) then
        (inl "Found field annotated with `union:switch` tag which is not legal in a struct which is not a union or already has a switch", isUnion)
      else if negb (validForUnionSwitch t) then (inl "Type not legal for union switch", isUnion)
      else finish InUnion [UnionSwitch] parts
    else if negb (IsInUnion_eqb isUnion InUnion) then
      (inl "union tag not valid as we are not inside a union", isUnion)
    else if String.eqb p "union:false" then finish isUnion [UnionCases [0]] parts
    else if String.eqb p "union:true" then finish isUnion [UnionCases [1]] parts
    else if String.eqb p "union:default" then finish isUnion [UnionDefault] parts
    else match parseU32s (TrimPrefix p "union:") with
         | None => (inl "Parsing `union:` values", isUnion)
         | Some vals => finish isUnion [UnionCases vals] parts
         end
  else if IsInUnion_eqb isUnion InUnion then
    (inl "Every field inside a union struct must have a `union:` leading tag", isUnion)
  else finish NotInUnion [] parts.

(** ** Codec construction (coder.go [buildCodec] and the [make*Codec]s) *)

(** [reflect.Zero(t)]; nil maps, interfaces, channels and functions are the
    empty map and the nil pointer of the value model. *)
Fixpoint zero (t : gotype) : value :=
  match t with
  | TBool => VBool false
  | TInt | TInt8 | TInt16 | TInt32 | TInt64
  | TUint | TUint8 | TUint16 | TUint32 | TUint64 | TUintptr => VInt 0
  | TFloat32 => VFloat32 0
  | TFloat64 => VFloat64 0
  | TComplex64 => VComplex64 0 0
  | TComplex128 => VComplex128 0 0
  | TString => VString []
  | TArray n e => VArray (repeat (zero e) (Z.to_nat n))
  | TSlice _ => VSlice true []
  | TMap _ _ => VMap []
  | TPtr _ => VPtr None
  | TStruct fs => VStruct (map (fun '(_, ft, _) => zero ft) fs)
  | TInterface | TChan | TFunc => VPtr None
  end.

(** Construction either returns a codec or panics. *)
Inductive build := Built (c : codec) | Panic (msg : string).

Definition bind_build (b : build) (k : codec -> build) : build :=
  match b with Built c => k c | Panic m => Panic m end.

Notation "'let*' c := b 'in' k" := (bind_build b (fun c => k))
  (at level 200, c name, b at level 100, k at level 200).

(** [if uint64(len) > uint64(maxInt) { len = maxInt }] *)
Definition cap_maxInt (len : Z) : Z := if len >? maxInt then maxInt else len.

Definition makeStringCodec (tag : XDRTag) : codec :=
  if negb (Empty (Next tag)) then errorCodec (ErrorString "string must not gave any following tags")
  else
    let r := match Kind tag with
             | Len n => Some (n, true)
             | MaxLen n => Some (n, false)
             | Noop => Some (MaxUint32, false)
             | _ => None
             end in
    match r with
    | None => errorCodec InvalidTagForTypeError
    | Some (len, fixed) =>
        let origMax := len in
        if (len >? maxInt) && fixed then errorCodec (LengthError len len)
        else let len := cap_maxInt len in
             if fixed then fixedStringCodec len else varStringCodec len origMax
    end.

(** The part of [makeSliceCodec] / [makeMapCodec] reading the [maxlen:]
    tag: [None] for any other tag kind than [MaxLen] and [Noop]. *)
Definition maxlen_of (tag : XDRTag) : option Z :=
  match Kind tag with
  | MaxLen n => Some n
  | Noop => Some MaxUint32
  | _ => None
  end.

(** A struct field as [makeStructCodec] sees it: name, type, tag string and
    [cr.getCodec(f.Type, _)]. *)
Definition sfield : Type := (string * gotype * string * (XDRTag -> build))%type.

Definition field_error (name msg : string) : codec :=
  errorCodec (ErrorString ("Parsing tag of field '" ++ name ++ "': " ++ msg)).

(** The loop building the fields of a plain struct ([NotInUnion]). *)
Fixpoint struct_fields (isUnion : IsInUnion) (i : nat) (fs : list sfield)
    (acc : list (nat * codec)) : build :=
  match fs with
  | [] => Built (structCodec acc)
  | (name, ft, stag, get) :: r =>
      let '(res, isUnion) := ParseTag ft stag isUnion in
      match res with
      | inl e => Built (field_error name e)
      | inr tag =>
          if is_Skip (Kind tag) then struct_fields isUnion (S i) r acc
          else let* c := get tag in struct_fields isUnion (S i) r (acc ++ [(i, c)])
      end
  end.

(** [c.cases[v] = i] for each value of a [UnionCases] tag, refusing a value
    seen before. *)
Fixpoint add_cases (vs : list Z) (i : Z) (cases : list (Z * Z)) : option (list (Z * Z)) :=
  match vs with
  | [] => Some cases
  | v :: r =>
      match lookup_case v cases with
      | Some _ => None
      | None => add_cases r i (cases ++ [(v, i)])
      end
  end.

(** The loop building the arms of a union ([InUnion]). *)
Fixpoint union_fields (isUnion : IsInUnion) (i : nat) (fs : list sfield)
    (swf : nat * codec) (body : list (option (nat * codec))) (cases : list (Z * Z))
    (dflt : Z) (k : switchKind) : build :=
  match fs with
  | [] => Built (unionCodec swf body cases dflt k)
  | (name, ft, stag, get) :: r =>
      let '(res, isUnion) := ParseTag ft stag isUnion in
      match res with
      | inl e => Built (field_error name e)
      | inr tag =>
          if is_Skip (Kind tag) then union_fields isUnion (S i) r swf body cases dflt k
          else
            let* c := get (Next tag) in
            let body := <[i := Some (i, c)]> body in
            match Kind tag with
            | UnionCases vs =>
                match add_cases vs (Z.of_nat i) cases with
                | None => Built (errorCodec (ErrorString "Union value duplicated"))
                | Some cases => union_fields isUnion (S i) r swf body cases dflt k
                end
            | UnionDefault =>
                if negb (dflt =? -1) then Built (errorCodec (ErrorString "Default case duplicated"))
                else union_fields isUnion (S i) r swf body cases (Z.of_nat i) k
            | _ => union_fields isUnion (S i) r swf body cases dflt k
            end
      end
  end.

(** [makeStructCodec]: the first loop runs while the struct is not known to
    be a union or not; [n] is [t.NumField()]. *)
Fixpoint struct_first (n i : nat) (fs : list sfield) : build :=
  match fs with
  | [] => Built (structCodec [])
  | (name, ft, stag, get) :: r =>
      let '(res, isUnion) := ParseTag ft stag MaybeInUnion in
      match res with
      | inl e => Built (field_error name e)
      | inr tag =>
          match isUnion with
          | MaybeInUnion =>
              if is_Skip (Kind tag) then struct_first n (S i) r
              else Panic "We found an unskipped field but somehow don't know if we're a union or not"
          | NotInUnion =>
              let* c := get tag in struct_fields NotInUnion (S i) r [(i, c)]
          | InUnion =>
              match Kind tag with
              | UnionSwitch =>
                  let sk := match ft with
                            | TInt32 => Some switchKindInt
                            | TUint32 => Some switchKindUint
                            | TBool => Some switchKindBool
                            | _ => None
                            end in
                  match sk with
                  | None => Panic "Switch field of union not valid (must be int32, uint32 or bool)"
                  | Some k =>
                      let* sc := get (Next tag) in
                      union_fields InUnion (S i) r (i, sc) (repeat None n) [] (-1) k
                  end
              | _ => Panic "First element of union not switch"
              end
          end
      end
  end.

Definition makeStructCodec (fs : list sfield) : build := struct_first (length fs) 0 fs.

(** [cr.buildCodec(t, tag)], with [getCodec] building afresh (the registry
    caches codecs, which does not change them).  Types implementing
    [Marshaler] and registered codecs are not part of the model: for every
    [gotype], [t.Implements(marshalerType)] is false and its branch (taken
    after the tag check, before the kind switch) is never taken.  The
    [Opt] case is [makeOptCodec]: the same type with the tag
    [tag.Next().Prepend(Noop).Trimmed()], which does not start with [Opt]. *)
Fixpoint buildCodec (t : gotype) (tag : XDRTag) {struct t} : build :=
  let nonopt (tag : XDRTag) : build :=
    match t with
    | TPtr e => let* c := buildCodec e (Next tag) in Built (ptrCodec c (zero e))
    | TString => Built (makeStringCodec tag)
    | TArray n e =>
        if negb (is_Noop (Kind tag)) then Built (errorCodec InvalidTagForTypeError)
        else match Kind (Next tag) with
             | Opaque => Built (opaqueArrayCodec n)
             | _ => let* c := buildCodec e (Next tag) in Built (arrayCodec c n)
             end
    | TSlice e =>
        match maxlen_of tag with
        | None => Built (errorCodec InvalidTagForTypeError)
        | Some origMax =>
            let maxlen := cap_maxInt origMax in
            match Kind (Next tag) with
            | Opaque => Built (opaqueSliceCodec maxlen origMax)
            | _ => let* c := buildCodec e (Next tag) in Built (sliceCodec c (zero e) maxlen origMax)
            end
        end
    | TMap k e =>
        match maxlen_of tag with
        | None => Built (errorCodec InvalidTagForTypeError)
        | Some origMax =>
            let maxlen := cap_maxInt origMax in
            let* kc := buildCodec k [] in
            let* vc := buildCodec e (Next tag) in
            Built (mapCodec kc vc (zero k) (zero e) maxlen origMax)
        end
    | _ =>
        if negb (Empty tag) then Built (errorCodec InvalidTagForTypeError)
        else match t with
             | TBool => Built boolCodec
             | TInt8 => Built (intCodec W8)
             | TInt16 => Built (intCodec W16)
             | TInt32 => Built (intCodec W32)
             | TUint8 => Built (uintCodec W8)
             | TUint16 => Built (uintCodec W16)
             | TUint32 => Built (uintCodec W32)
             | TInt64 => Built hyperCodec
             | TUint64 => Built uhyperCodec
             | TFloat32 => Built floatCodec
             | TFloat64 => Built doubleCodec
             | TComplex64 => Built complex64Codec
             | TComplex128 => Built complex128Codec
             | TStruct fs =>
                 makeStructCodec
                   ((fix getters (fs : list (string * gotype * string)) : list sfield :=
                       match fs with
                       | [] => []
                       | (name, ft, stag) :: r => (name, ft, stag, buildCodec ft) :: getters r
                       end) fs)
             | _ => Built (errorCodec InvalidTypeError)
             end
    end in
  match Kind tag with
  | Opt => let* c := nonopt (Trimmed (Noop :: Next tag)) in Built (optCodec c)
  | _ => nonopt tag
  end.

(** ** Round trip: the value expected back from decoding *)

(** The quiet NaN [0x7fc00000] stands for every NaN bit pattern. *)
Definition canon32 (x : Z) : Z := if is_nan32 x then 2143289344 else x.

(** A value with its [float32] NaNs canonicalised: values with the same
    [vnorm] are equal, NaN components compared by being NaN. *)
Fixpoint vnorm (v : value) : value :=
  match v with
  | VFloat32 f => VFloat32 (canon32 f)
  | VComplex64 a b => VComplex64 (canon32 a) (canon32 b)
  | VArray xs => VArray (map vnorm xs)
  | VSlice n xs => VSlice n (map vnorm xs)
  | VMap kvs => VMap (map (fun '(k, x) => (vnorm k, vnorm x)) kvs)
  | VPtr p => VPtr (option_map vnorm p)
  | VStruct vs => VStruct (map vnorm vs)
  | _ => v
  end.

Fixpoint merge_fields (mg : codec -> value -> value -> value) (fs : list (nat * codec))
    (vs ds : list value) : list value :=
  match fs with
  | [] => ds
  | (i, fc) :: r =>
      match vs !! i, ds !! i with
      | Some x, Some d => merge_fields mg r vs (<[i := mg fc x d]> ds)
      | _, _ => ds
      end
  end.

Fixpoint merge_arm (mg : codec -> value -> value -> value) (body : list (option (nat * codec)))
    (k : Z) (vs ds : list value) : list value :=
  match body with
  | [] => ds
  | o :: r =>
      if k =? 0 then
        match o with
        | Some (fi, fc) =>
            match vs !! fi, ds !! fi with
            | Some x, Some d => <[fi := mg fc x d]> ds
            | _, _ => ds
            end
        | None => ds
        end
      else merge_arm mg r (k - 1) vs ds
  end.

(** [merge c v d]: the transmitted parts of [v] (for codec [c]) over the
    destination [d].  Struct fields without a codec (tagged ["-"]) and the
    union arms not selected keep the destination's value, slices and maps
    are built afresh, and an empty slice comes back nil. *)
Fixpoint merge (c : codec) (v d : value) {struct c} : value :=
  match c with
  | arrayCodec elem _ =>
      match v, d with
      | VArray xs, VArray ds => VArray (zip_with (merge elem) xs ds)
      | _, _ => v
      end
  | opaqueSliceCodec _ _ =>
      match v with
      | VSlice _ [] => VSlice true []
      | VSlice _ xs => VSlice false xs
      | _ => v
      end
  | sliceCodec elem z _ _ =>
      match v with
      | VSlice _ [] => VSlice true []
      | VSlice _ xs => VSlice false (map (fun x => merge elem x z) xs)
      | _ => v
      end
  | mapCodec kc vc kz vz _ _ =>
      match v with
      | VMap kvs => VMap (map (fun '(k, x) => (merge kc k kz, merge vc x vz)) kvs)
      | _ => v
      end
  | optCodec elem =>
      match v with
      | VPtr None => VPtr None
      | _ => merge elem v d
      end
  | ptrCodec elem z =>
      match v with
      | VPtr (Some x) => VPtr (Some (merge elem x z))
      | _ => v
      end
  | structCodec fs =>
      match v, d with
      | VStruct vs, VStruct ds => VStruct (merge_fields merge fs vs ds)
      | _, _ => v
      end
  | unionCodec (si, sc) body cases dflt k =>
      match v, d with
      | VStruct vs, VStruct ds =>
          match vs !! si, ds !! si with
          | Some sw, Some dsw =>
              match switch_value k sw with
              | Some s =>
                  VStruct (merge_arm merge body (case_field s cases dflt) vs
                             (<[si := merge sc sw dsw]> ds))
              | None => v
              end
          | _, _ => v
          end
      | _, _ => v
      end
  | _ => v
  end.

(** Codecs of map keys covered by the round trip: scalars and strings. *)
Definition key_codec (c : codec) : bool :=
  match c with
  | boolCodec | intCodec _ | uintCodec _ | hyperCodec | uhyperCodec | floatCodec | doubleCodec
  | complex64Codec | complex128Codec | fixedStringCodec _ | varStringCodec _ _ => true
  | _ => false
  end.

(** The keys of a Go map are pairwise different under [==] (NaN keys are
    all different), in the orientation [SetMapIndex] tests them. *)
Fixpoint keys_fresh (seen kvs : list (value * value)) : bool :=
  match kvs with
  | [] => true
  | (k, x) :: r =>
      negb (existsb (fun '(k', _) => go_eqb k' k) seen) && keys_fresh (seen ++ [(k, x)]) r
  end.

(** The switch codecs [makeStructCodec] builds (int32, uint32, bool). *)
Definition switch_codec (sc : codec) (k : switchKind) : Prop :=
  (sc = intCodec W32 /\ k = switchKindInt) \/ (sc = uintCodec W32 /\ k = switchKindUint)
  \/ (sc = boolCodec /\ k = switchKindBool).

Definition is_byte (v : value) : Prop := match v with VInt b => 0 <= b < 256 | _ => False end.

Fixpoint all_fields (P : codec -> value -> Prop) (fs : list (nat * codec)) (vs : list value) : Prop :=
  match fs with
  | [] => True
  | (i, fc) :: r => (exists x, vs !! i = Some x /\ P fc x) /\ all_fields P r vs
  end.

Fixpoint all_arms (P : codec -> value -> Prop) (si : nat) (body : list (option (nat * codec)))
    (vs : list value) : Prop :=
  match body with
  | [] => True
  | None :: r => all_arms P si r vs
  | Some (fi, fc) :: r => (fi <> si /\ exists x, vs !! fi = Some x /\ P fc x) /\ all_arms P si r vs
  end.

Definition len_param (maxlen origMax : Z) : Prop := maxlen = origMax /\ 0 <= maxlen <= MaxUint32.

(** [wf c v]: [v] is a value of the Go type [c] was built for, and the
    parameters of [c] are those [buildCodec] gives. *)
Fixpoint wf (c : codec) (v : value) {struct c} : Prop :=
  match c, v with
  | boolCodec, VBool _ => True
  | intCodec w, VInt i => - 2 ^ (width_bits w - 1) <= i < 2 ^ (width_bits w - 1)
  | uintCodec w, VInt u => 0 <= u < 2 ^ width_bits w
  | hyperCodec, VInt i => - 2 ^ 63 <= i < 2 ^ 63
  | uhyperCodec, VInt u => 0 <= u < 2 ^ 64
  | floatCodec, VFloat32 f => 0 <= f < 2 ^ 32
  | doubleCodec, VFloat64 f => 0 <= f < 2 ^ 64
  | complex64Codec, VComplex64 a b => 0 <= a < 2 ^ 32 /\ 0 <= b < 2 ^ 32
  | complex128Codec, VComplex128 a b => 0 <= a < 2 ^ 64 /\ 0 <= b < 2 ^ 64
  | fixedStringCodec len, VString s => 0 <= len <= MaxUint32 /\ Forall (fun b => 0 <= b < 256) s
  | varStringCodec maxlen origMax, VString s =>
      len_param maxlen origMax /\ Forall (fun b => 0 <= b < 256) s
  | opaqueArrayCodec len, VArray xs => Z.of_nat (length xs) = len /\ Forall is_byte xs
  | arrayCodec elem len, VArray xs => Z.of_nat (length xs) = len /\ Forall (wf elem) xs
  | opaqueSliceCodec maxlen origMax, VSlice isnil xs =>
      len_param maxlen origMax /\ Forall is_byte xs /\ (isnil = true -> xs = [])
  | sliceCodec elem z maxlen origMax, VSlice isnil xs =>
      len_param maxlen origMax /\ wf elem z /\ Forall (wf elem) xs /\ (isnil = true -> xs = [])
  | mapCodec kc vc kz vz maxlen origMax, VMap kvs =>
      len_param maxlen origMax /\ key_codec kc = true /\ wf kc kz /\ wf vc vz
      /\ Forall (fun kx => wf kc (fst kx) /\ wf vc (snd kx)) kvs /\ keys_fresh [] kvs = true
  | optCodec elem, VPtr p => wf elem (VPtr None) /\ (p = None \/ wf elem v)
  | ptrCodec elem z, VPtr p => wf elem z /\ (forall x, p = Some x -> wf elem x)
  | structCodec fs, VStruct vs => NoDup (map fst fs) /\ all_fields wf fs vs
  | unionCodec (si, sc) body cases dflt k, VStruct vs =>
      switch_codec sc k /\ (exists x, vs !! si = Some x /\ wf sc x) /\ all_arms wf si body vs
  | errorCodec _, _ => True
  | _, _ => False
  end.

(** ** Wire images and lengths *)

(** The four bytes [EncodeInt] writes, most significant first. *)
Definition word_bytes (x : Z) : list Z :=
  [(x / 2 ^ 24) mod 256; (x / 2 ^ 16) mod 256; (x / 2 ^ 8) mod 256; x mod 256].

(** The eight bytes [EncodeHyper] writes. *)
Definition hyper_bytes (x : Z) : list Z :=
  [(x / 2 ^ 56) mod 256; (x / 2 ^ 48) mod 256; (x / 2 ^ 40) mod 256; (x / 2 ^ 32) mod 256;
   (x / 2 ^ 24) mod 256; (x / 2 ^ 16) mod 256; (x / 2 ^ 8) mod 256; x mod 256].

(** The bytes written are a whole number of 4-byte units. *)
Definition mult4 (w : W) : Prop := exists k, length (fst w) = (4 * k)%nat.

(** [roundtrip c]: every well-formed value [v] that [c] encodes without
    error is decoded by [c], into any well-formed destination [d], from
    exactly the bytes written, without error, giving [merge c v d] (up to
    the NaN bit patterns of [float32]s). *)
Definition roundtrip (f32_conv : Z -> Z) (c : codec) : Prop :=
  forall v d bs rest, wf c v -> wf c d -> Encode f32_conv c v = (bs, None) ->
  exists v', Decode f32_conv c d (bs ++ rest) = (v', None, rest) /\ vnorm v' = vnorm (merge c v d).

(** ** Induction over codec trees *)

Section CodecInd.
Variable P : codec -> Prop.
Hypothesis H_bool : P boolCodec.
Hypothesis H_int : forall w, P (intCodec w).
Hypothesis H_uint : forall w, P (uintCodec w).
Hypothesis H_hyper : P hyperCodec.
Hypothesis H_uhyper : P uhyperCodec.
Hypothesis H_float : P floatCodec.
Hypothesis H_double : P doubleCodec.
Hypothesis H_c64 : P complex64Codec.
Hypothesis H_c128 : P complex128Codec.
Hypothesis H_fstr : forall len, P (fixedStringCodec len).
Hypothesis H_vstr : forall m o, P (varStringCodec m o).
Hypothesis H_oarr : forall len, P (opaqueArrayCodec len).
Hypothesis H_arr : forall elem len, P elem -> P (arrayCodec elem len).
Hypothesis H_oslice : forall m o, P (opaqueSliceCodec m o).
Hypothesis H_slice : forall elem z m o, P elem -> P (sliceCodec elem z m o).
Hypothesis H_map : forall kc vc kz vz m o, P kc -> P vc -> P (mapCodec kc vc kz vz m o).
Hypothesis H_opt : forall elem, P elem -> P (optCodec elem).
Hypothesis H_ptr : forall elem z, P elem -> P (ptrCodec elem z).
Hypothesis H_struct : forall fs, Forall (fun f => P (snd f)) fs -> P (structCodec fs).
Hypothesis H_union : forall si sc body cases dflt k,
  P sc -> Forall (fun o => match o with Some f => P (snd f) | None => True end) body ->
  P (unionCodec (si, sc) body cases dflt k).
Hypothesis H_error : forall e, P (errorCodec e).

Fixpoint codec_ind' (c : codec) : P c :=
  match c with
  | boolCodec => H_bool
  | intCodec w => H_int w
  | uintCodec w => H_uint w
  | hyperCodec => H_hyper
  | uhyperCodec => H_uhyper
  | floatCodec => H_float
  | doubleCodec => H_double
  | complex64Codec => H_c64
  | complex128Codec => H_c128
  | fixedStringCodec len => H_fstr len
  | varStringCodec m o => H_vstr m o
  | opaqueArrayCodec len => H_oarr len
  | arrayCodec elem len => H_arr elem len (codec_ind' elem)
  | opaqueSliceCodec m o => H_oslice m o
  | sliceCodec elem z m o => H_slice elem z m o (codec_ind' elem)
  | mapCodec kc vc kz vz m o => H_map kc vc kz vz m o (codec_ind' kc) (codec_ind' vc)
  | optCodec elem => H_opt elem (codec_ind' elem)
  | ptrCodec elem z => H_ptr elem z (codec_ind' elem)
  | structCodec fs =>
      H_struct fs ((fix go (fs : list (nat * codec)) : Forall (fun f => P (snd f)) fs :=
                      match fs with
                      | [] => List.Forall_nil _
                      | (i, fc) :: r => List.Forall_cons _ (i, fc) r (codec_ind' fc) (go r)
                      end) fs)
  | unionCodec (si, sc) body cases dflt k =>
      H_union si sc body cases dflt k (codec_ind' sc)
        ((fix go (body : list (option (nat * codec)))
            : Forall (fun o => match o with Some f => P (snd f) | None => True end) body :=
            match body with
            | [] => List.Forall_nil _
            | o :: r =>
                List.Forall_cons _ o r
                  (match o return match o with Some f => P (snd f) | None => True end with
                   | Some (i, fc) => codec_ind' fc
                   | None => I
                   end) (go r)
            end) body)
  | errorCodec e => H_error e
  end.
End CodecInd.

(** ** The byte encoding of [XDRTag] (part_014) *)

Module TagBytes.

(** [type XDRTag []byte]. *)
Definition tag : Type := list Z.

(** The [XDRTagKind] constants: [0x00 | iota] for the kinds without value,
    [0x80 | iota] for single values, [0xC0 | iota] for multiple values. *)
Definition kind_code (e : tagent) : Z :=
  match e with
  | Noop => 0 | Skip => 1 | Opt => 2 | Opaque => 3 | UnionSwitch => 4 | UnionDefault => 5
  | Len _ => 134 | MaxLen _ => 135 | UnionCases _ => 200
  end.

(** The [values] passed to [Append] for an entry. *)
Definition ent_values (e : tagent) : list Z :=
  match e with Len n | MaxLen n => [n] | UnionCases vs => vs | _ => [] end.

Definition Empty (t : tag) : bool := match t with [] => true | _ => false end.

Definition Kind (t : tag) : Z := match t with b :: _ => b | [] => 0 end.

(** [valAt]: [None] is the panic of the bounds check [_ = t[offs+3]]. *)
Definition valAt (t : tag) (offs : nat) : option Z :=
  match nth_error t (offs + 3) with
  | None => None
  | Some _ =>
      let b i := nth i t 0 in
      Some ((Z.lor (Z.lor (Z.shiftl (b offs) 24) (Z.shiftl (b (offs + 1)%nat) 16))
                   (Z.shiftl (b (offs + 2)%nat) 8) + b (offs + 3)%nat) mod 2 ^ 32)
  end.

Definition thisLen (t : tag) : option nat :=
  match t with
  | [] => Some 0%nat
  | b :: _ =>
      if b <? 128 then Some 1%nat
      else if b <? 192 then Some 5%nat
      else match valAt t 1 with None => None | Some n => Some (5 + Z.to_nat n * 4)%nat end
  end.

(** [Next]: [None] is a panic ([valAt], or [t[l:]] past the end). *)
Definition Next (t : tag) : option tag :=
  match thisLen t with
  | None => None
  | Some l =>
      if Nat.eqb (length t) l then Some []
      else if Nat.ltb (length t) l then None
      else Some (drop l t)
  end.

Definition OnlyValue (t : tag) : option Z := valAt t 1.

Definition ValueRange (t : tag) : option (nat * nat) :=
  match t with
  | [] => None
  | b :: _ =>
      if b <? 128 then Some (0, 0)%nat
      else if b <? 192 then (if Nat.leb (length t) 4 then None else Some (0, 1)%nat)
      else match valAt t 1 with
           | None => None
           | Some n =>
               let max := (1 + Z.to_nat n)%nat in
               if Nat.leb (length t) (4 * max) then None else Some (1%nat, max)
           end
  end.

Definition Value (t : tag) (n : nat) : option Z := valAt t (1 + 4 * n).

(** [Append]: [None] is the panic on a value count that does not fit the
    kind; [byte(v>>24), byte(v>>16), byte(v>>8), byte(v)] is [word_bytes v]. *)
Definition Append (t : tag) (k : Z) (values : list Z) : option tag :=
  if k <? 128 then
    match values with [] => Some (t ++ [k]) | _ => None end
  else if k <? 192 then
    match values with [v] => Some (t ++ k :: word_bytes v) | _ => None end
  else Some (t ++ k :: word_bytes (Z.of_nat (length values)) ++ concat (map word_bytes values)).

Definition Prepend (t : tag) (k : Z) (values : list Z) : option tag :=
  match Append [] k values with None => None | Some nt => Some (nt ++ t) end.

(** The loop of [Trimmed]; every round shortens [ct], so [length t + 1]
    rounds are enough. *)
Fixpoint trim_loop (fuel : nat) (t ct : tag) (e mark : nat) : option tag :=
  match fuel with
  | O => None
  | S f =>
      if Empty ct then Some (take mark t)
      else match thisLen ct with
           | None => None
           | Some l =>
               let e := (e + l)%nat in
               let mark := if Kind ct =? 0 then mark else e in
               match Next ct with None => None | Some ct' => trim_loop f t ct' e mark end
           end
  end.

Definition Trimmed (t : tag) : option tag := trim_loop (S (length t)) t t 0 0.

(** The tag [ParseTag] builds with [xt = xt.Append(...)], one entry after
    the other. *)
Definition of_entries (l : XDRTag) : option tag :=
  fold_left (fun acc e => match acc with Some t => Append t (kind_code e) (ent_values e) | None => None end)
    l (Some []).

(** The bytes [Append] adds for an entry. *)
Definition ent_bytes (e : tagent) : tag :=
  match e with
  | Len n | MaxLen n => kind_code e :: word_bytes n
  | UnionCases vs => kind_code e :: word_bytes (Z.of_nat (length vs)) ++ concat (map word_bytes vs)
  | _ => [kind_code e]
  end.

(** The values an entry can carry: [uint32]s, and fewer than [2^32] of them. *)
Definition wf_entry (e : tagent) : Prop :=
  Forall (fun v => 0 <= v < 2 ^ 32) (ent_values e) /\ Z.of_nat (length (ent_values e)) < 2 ^ 32.

End TagBytes.

(** ** Error texts and field paths (internal/errors/errors.go) *)

Module ErrorText.

(** An [error] as far as [FieldError] sees it: a [FieldError], or any other
    error, of which only its [Error()] text matters. *)
Inductive gerror :=
| Plain (msg : string)
| FieldErr (Underlying : gerror) (Path : string).

(** [strings.Join(elems, sep)] *)
Fixpoint Join (elems : list string) (sep : string) : string :=
  match elems with
  | [] => EmptyString
  | [a] => a
  | a :: r => (a ++ sep ++ Join r sep)%string
  end.

Fixpoint Error (e : gerror) : string :=
  match e with
  | Plain m => m
  | FieldErr u p => ("xdr: " ++ TrimPrefix (Error u) "xdr: " ++ " (at " ++ p ++ ")")%string
  end.

(** The [combined] path of [WithFieldError]; [None] is the panic of
    [parts[0]] on no parts. *)
Definition combine (parts : list string) : option string :=
  match parts with
  | [] => None
  | p0 :: r =>
      let p0 := if String.eqb p0 EmptyString then "<anonymous>"%string else p0 in
      Some (match p0 :: r with
            | [a] => a
            | [a; b; c] => (a ++ "." ++ b ++ "(" ++ c ++ ")")%string
            | parts => Join parts "."
            end)
  end.

(** [WithFieldError(err, parts...)]; the outer [None] is a panic. *)
Definition WithFieldError (err : option gerror) (parts : list string) : option (option gerror) :=
  match err with
  | None => Some None
  | Some e =>
      match combine parts with
      | None => None
      | Some c =>
          Some (Some (match e with
                      | FieldErr u p => FieldErr u (c ++ " " ++ p)%string
                      | _ => FieldErr e c
                      end))
      end
  end.

(** An error passed up through nested codecs, each wrapping it with its own
    [parts] (the outermost first). *)
Fixpoint wrap (e : gerror) (pss : list (list string)) : option (option gerror) :=
  match pss with
  | [] => Some (Some e)
  | ps :: r =>
      match wrap e r with
      | Some (Some e') => WithFieldError (Some e') ps
      | x => x
      end
  end.

End ErrorText.

(** * Properties *)

(** ** Integer words on the wire *)

Lemma byte_of_shiftr (x n : Z) : 0 <= n -> byte_of (Z.shiftr x n) = (x / 2 ^ n) mod 256.
Proof.
  intros Hn. unfold byte_of. rewrite Z.shiftr_div_pow2 by exact Hn.
  change 255 with (Z.ones 8). rewrite Z.land_ones by lia. reflexivity.
Qed.

Lemma byte_of_mod (x : Z) : byte_of x = x mod 256.
Proof. unfold byte_of. change 255 with (Z.ones 8). rewrite Z.land_ones by lia. reflexivity. Qed.

Lemma EncodeInt_eq (x : Z) : EncodeInt x = (word_bytes x, None).
Proof.
  unfold EncodeInt, wwrite, word_bytes.
  rewrite !byte_of_shiftr, byte_of_mod by lia. reflexivity.
Qed.

Lemma div_mod_split (x a : Z) : 0 < a -> x mod (256 * a) = x mod 256 + 256 * ((x / 256) mod a).
Proof. intros Ha. apply Z.rem_mul_r; lia. Qed.

Lemma be_value_word (x : Z) : be_value (word_bytes x) = x mod 2 ^ 32.
Proof.
  unfold be_value, word_bytes; simpl.
  change (2 ^ 32) with (256 * (256 * (256 * 256))).
  change (2 ^ 24) with (256 * 256 * 256). change (2 ^ 16) with (256 * 256). change (2 ^ 8) with 256.
  rewrite !div_mod_split by lia.
  rewrite !Z.div_div by lia. ring.
Qed.

Lemma word_bytes_length (x : Z) : length (word_bytes x) = 4%nat.
Proof. reflexivity. Qed.

Lemma EncodeHyper_eq (x : Z) : EncodeHyper x = (hyper_bytes x, None).
Proof.
  unfold EncodeHyper, wwrite, hyper_bytes.
  rewrite !byte_of_shiftr, byte_of_mod by lia. reflexivity.
Qed.

Lemma be_value_hyper (x : Z) : be_value (hyper_bytes x) = x mod 2 ^ 64.
Proof.
  unfold be_value, hyper_bytes; simpl.
  change (2 ^ 64) with (256 * (256 * (256 * (256 * (256 * (256 * (256 * 256))))))).
  change (2 ^ 56) with (256 * 256 * 256 * 256 * 256 * 256 * 256).
  change (2 ^ 48) with (256 * 256 * 256 * 256 * 256 * 256).
  change (2 ^ 40) with (256 * 256 * 256 * 256 * 256).
  change (2 ^ 32) with (256 * 256 * 256 * 256).
  change (2 ^ 24) with (256 * 256 * 256). change (2 ^ 16) with (256 * 256). change (2 ^ 8) with 256.
  rewrite !div_mod_split by lia.
  rewrite !Z.div_div by lia. ring.
Qed.

Lemma to_signed_mod (w x : Z) : 0 < w -> to_signed w x mod 2 ^ w = x mod 2 ^ w.
Proof.
  intros Hw. unfold to_signed.
  assert (0 < 2 ^ w) by (apply Z.pow_pos_nonneg; lia).
  destruct (x mod 2 ^ w >=? 2 ^ (w - 1)).
  - rewrite Zminus_mod, Z.mod_same, Z.mod_mod by lia. rewrite Z.sub_0_r, Z.mod_mod by lia. reflexivity.
  - apply Z.mod_mod. lia.
Qed.

Lemma to_signed_of_mod (w x : Z) : to_signed w (x mod 2 ^ w) = to_signed w x.
Proof.
  unfold to_signed. destruct (Z.eq_dec (2 ^ w) 0) as [E|E].
  - rewrite E, !Z.mod_0_r. reflexivity.
  - rewrite Z.mod_mod by exact E. reflexivity.
Qed.

Lemma to_signed_id (w x : Z) : 0 < w -> - 2 ^ (w - 1) <= x < 2 ^ (w - 1) -> to_signed w x = x.
Proof.
  intros Hw Hx. unfold to_signed.
  assert (E : 2 ^ w = 2 * 2 ^ (w - 1)).
  { rewrite <- Z.pow_succ_r by lia. f_equal. lia. }
  destruct (Z_lt_le_dec x 0) as [Hneg|Hpos].
  - assert (M : x mod 2 ^ w = x + 2 ^ w).
    { symmetry. apply Z.mod_unique with (q := -1); lia. }
    rewrite M. destruct (Z.geb_spec (x + 2 ^ w) (2 ^ (w - 1))); lia.
  - rewrite Z.mod_small by lia. destruct (Z.geb_spec x (2 ^ (w - 1))); lia.
Qed.

Lemma to_signed_range (w x : Z) : 0 < w -> - 2 ^ (w - 1) <= to_signed w x < 2 ^ (w - 1).
Proof.
  intros Hw. unfold to_signed.
  assert (E : 2 ^ w = 2 * 2 ^ (w - 1)).
  { rewrite <- Z.pow_succ_r by lia. f_equal. lia. }
  pose proof (Z.mod_pos_bound x (2 ^ w)) as B.
  destruct (Z.geb_spec (x mod 2 ^ w) (2 ^ (w - 1))); lia.
Qed.

Lemma EncodeUnsignedInt_eq (u : Z) : EncodeUnsignedInt u = (word_bytes (to_signed 32 u), None).
Proof. apply EncodeInt_eq. Qed.

Lemma be_value_word_signed (u : Z) : be_value (word_bytes (to_signed 32 u)) = u mod 2 ^ 32.
Proof. rewrite be_value_word. apply to_signed_mod. lia. Qed.

Lemma ReadFull_app (n : nat) (w rest : list Z) :
  length w = n -> ReadFull n (w ++ rest) = (w, rest, None).
Proof.
  intros <-. unfold ReadFull.
  rewrite decide_True by (rewrite length_app; lia).
  rewrite take_app_length, drop_app_length. reflexivity.
Qed.

Lemma fill_full (n : nat) (w : list Z) : length w = n -> fill n w = w.
Proof. intros <-. unfold fill. rewrite Nat.sub_diag. simpl. apply app_nil_r. Qed.

Lemma DecodeUnsignedInt_app (w rest : list Z) :
  length w = 4%nat -> DecodeUnsignedInt (w ++ rest) = (be_value w, None, rest).
Proof.
  intros Hw. unfold DecodeUnsignedInt. rewrite ReadFull_app by exact Hw.
  rewrite fill_full by exact Hw. reflexivity.
Qed.

Lemma DecodeUnsignedHyper_app (w rest : list Z) :
  length w = 8%nat -> DecodeUnsignedHyper (w ++ rest) = (be_value w, None, rest).
Proof.
  intros Hw. unfold DecodeUnsignedHyper. rewrite ReadFull_app by exact Hw.
  rewrite fill_full by exact Hw. reflexivity.
Qed.

(** The number of padding bytes [EncodeFixedOpaque] writes after [n] bytes. *)
Lemma padding_eq (n : Z) : Z.land (4 - Z.land n 3) 3 = (4 - n mod 4) mod 4.
Proof.
  change 3 with (Z.ones 2). rewrite !Z.land_ones by lia. reflexivity.
Qed.

Lemma padding_bound (n : Z) : 0 <= Z.land (4 - Z.land n 3) 3 < 4.
Proof. rewrite padding_eq. apply Z.mod_pos_bound. lia. Qed.

Lemma padding_round (n : Z) : (n + Z.land (4 - Z.land n 3) 3) mod 4 = 0.
Proof.
  rewrite padding_eq, Zplus_mod.
  pose proof (Z.mod_pos_bound n 4 ltac:(lia)) as B.
  assert (R : n mod 4 = 0 \/ n mod 4 = 1 \/ n mod 4 = 2 \/ n mod 4 = 3) by lia.
  destruct R as [R|[R|[R|R]]]; rewrite R; reflexivity.
Qed.

(** [lPad := (int(l) + 3) & ^3] of [DecodeOpaque] is the length with its
    padding. *)
Lemma lPad_eq (l : Z) : Z.land (l + 3) (Z.lnot 3) = l + Z.land (4 - Z.land l 3) 3.
Proof.
  rewrite padding_eq. rewrite <- Z.ldiff_land.
  change (Z.ldiff (l + 3) 3) with (Z.ldiff (l + 3) (Z.ones 2)).
  rewrite Z.ldiff_ones_r, Z.shiftl_mul_pow2, Z.shiftr_div_pow2 by lia.
  change (2 ^ 2) with 4.
  pose proof (Z.div_mod (l + 3) 4 ltac:(lia)) as D1.
  pose proof (Z.mod_pos_bound (l + 3) 4 ltac:(lia)) as B1.
  pose proof (Z.div_mod l 4 ltac:(lia)) as D2.
  pose proof (Z.mod_pos_bound l 4 ltac:(lia)) as B2.
  assert (R : l mod 4 = 0 \/ l mod 4 = 1 \/ l mod 4 = 2 \/ l mod 4 = 3) by lia.
  destruct R as [R|[R|[R|R]]]; rewrite R in *;
    [change ((4 - 0) mod 4) with 0 | change ((4 - 1) mod 4) with 3
    | change ((4 - 2) mod 4) with 2 | change ((4 - 3) mod 4) with 1]; lia.
Qed.

Lemma length_pad (n : Z) : length (pad n) = Z.to_nat n.
Proof. unfold pad. apply repeat_length. Qed.

(** ** Lengths of encodings *)

Lemma mult4_nil (e : option xerror) : mult4 ([], e).
Proof. exists 0%nat. reflexivity. Qed.

Lemma mult4_wseq (a b : W) : mult4 a -> mult4 b -> mult4 (a >>> b).
Proof.
  intros [ka Ha] [kb Hb]. destruct a as [o [e|]]; unfold wseq; simpl in *.
  - exists ka. exact Ha.
  - exists (ka + kb)%nat. cbn [fst]. rewrite length_app, Ha, Hb. lia.
Qed.

Lemma mult4_err (o : list Z) (e e' : option xerror) : mult4 (o, e) -> mult4 (o, e').
Proof. intros [k H]. exists k. exact H. Qed.

Lemma mult4_EncodeInt (x : Z) : mult4 (EncodeInt x).
Proof. rewrite EncodeInt_eq. exists 1%nat. reflexivity. Qed.

Lemma mult4_EncodeHyper (x : Z) : mult4 (EncodeHyper x).
Proof. rewrite EncodeHyper_eq. exists 2%nat. reflexivity. Qed.

(** [len] bytes and their padding fill whole units. *)
Lemma padded_length (buf : list Z) :
  exists k, (length buf + Z.to_nat (Z.land (4 - Z.land (Z.of_nat (length buf)) 3) 3) = 4 * k)%nat.
Proof.
  pose proof (padding_round (Z.of_nat (length buf))) as R.
  pose proof (padding_bound (Z.of_nat (length buf))) as B.
  set (p := Z.land (4 - Z.land (Z.of_nat (length buf)) 3) 3) in *.
  pose proof (Z.div_mod (Z.of_nat (length buf) + p) 4 ltac:(lia)) as D.
  exists (Z.to_nat ((Z.of_nat (length buf) + p) / 4)).
  assert (0 <= (Z.of_nat (length buf) + p) / 4) by (apply Z.div_pos; lia).
  lia.
Qed.

Lemma EncodeFixedOpaque_eq (buf : list Z) :
  EncodeFixedOpaque buf = (buf ++ pad (Z.land (4 - Z.land (Z.of_nat (length buf)) 3) 3), None).
Proof. reflexivity. Qed.

Lemma EncodeFixedString_eq (s : list Z) :
  EncodeFixedString s = (s ++ pad (Z.land (4 - Z.land (Z.of_nat (length s)) 3) 3), None).
Proof. reflexivity. Qed.

Lemma mult4_EncodeFixedOpaque (buf : list Z) : mult4 (EncodeFixedOpaque buf).
Proof.
  rewrite EncodeFixedOpaque_eq. destruct (padded_length buf) as [k Hk].
  exists k. simpl. rewrite length_app, length_pad. exact Hk.
Qed.

Lemma mult4_EncodeFixedString (s : list Z) : mult4 (EncodeFixedString s).
Proof. rewrite EncodeFixedString_eq, <- EncodeFixedOpaque_eq. apply mult4_EncodeFixedOpaque. Qed.

Lemma mult4_EncodeOpaque (buf : list Z) : mult4 (EncodeOpaque buf).
Proof.
  unfold EncodeOpaque. destruct (_ >? _).
  - apply mult4_nil.
  - apply mult4_wseq; [apply mult4_EncodeInt | apply mult4_EncodeFixedOpaque].
Qed.

Lemma mult4_EncodeString (s : list Z) : mult4 (EncodeString s).
Proof.
  unfold EncodeString. destruct (_ >? _).
  - apply mult4_nil.
  - apply mult4_wseq; [apply mult4_EncodeInt | apply mult4_EncodeFixedString].
Qed.

Lemma mult4_encode_each (enc : value -> W) (xs : list value) :
  (forall x, mult4 (enc x)) -> mult4 (encode_each enc xs).
Proof.
  intros H. induction xs as [|x r IH]; simpl.
  - apply mult4_nil.
  - apply mult4_wseq; auto.
Qed.

Lemma mult4_encode_pairs (enck encv : value -> W) (kvs : list (value * value)) :
  (forall x, mult4 (enck x)) -> (forall x, mult4 (encv x)) -> mult4 (encode_pairs enck encv kvs).
Proof.
  intros Hk Hv. induction kvs as [|[k x] r IH]; simpl.
  - apply mult4_nil.
  - repeat apply mult4_wseq; auto.
Qed.

Lemma mult4_encode_fields (enc : codec -> value -> W) (fs : list (nat * codec)) (vs : list value) :
  Forall (fun f => forall x, mult4 (enc (snd f) x)) fs -> mult4 (encode_fields enc fs vs).
Proof.
  induction 1 as [|[i fc] r Hf Hr IH]; simpl.
  - apply mult4_nil.
  - apply mult4_wseq; [|exact IH].
    destruct (vs !! i) as [x|]; [|apply mult4_nil].
    specialize (Hf x). simpl in Hf. destruct (enc fc x) as [o err].
    eapply mult4_err. exact Hf.
Qed.

Lemma mult4_encode_arm (enc : codec -> value -> W) (body : list (option (nat * codec)))
    (k : Z) (vs : list value) :
  Forall (fun o => match o with Some f => forall x, mult4 (enc (snd f) x) | None => True end) body ->
  mult4 (encode_arm enc body k vs).
Proof.
  intros H. revert k. induction H as [|o r Ho Hr IH]; intros k; simpl.
  - apply mult4_nil.
  - destruct (k =? 0); [|apply IH].
    destruct o as [[fi fc]|]; [|apply mult4_nil].
    destruct (vs !! fi) as [x|]; [|apply mult4_nil].
    specialize (Ho x). simpl in Ho. destruct (enc fc x) as [out err].
    eapply mult4_err. exact Ho.
Qed.

Ltac mult4_prim :=
  unfold EncodeBool, EncodeUnsignedInt, EncodeFloat, EncodeDouble, EncodeUnsignedHyper;
  repeat first
    [ apply mult4_wseq
    | apply mult4_EncodeInt
    | apply mult4_EncodeHyper
    | apply mult4_EncodeFixedOpaque
    | apply mult4_EncodeFixedString
    | apply mult4_EncodeOpaque
    | apply mult4_EncodeString
    | apply mult4_nil ].


Lemma Encode_mult4 (f32_conv : Z -> Z) (c : codec) : forall v, mult4 (Encode f32_conv c v).
Proof.
  induction c using codec_ind'; intros v; destruct v; try (simpl; apply mult4_nil; fail).
  all: cbn [Encode].
  1-9: unfold EncodeBool, EncodeUnsignedInt, EncodeFloat, EncodeDouble, EncodeUnsignedHyper.
  1-7: first [apply mult4_EncodeInt | apply mult4_EncodeHyper].
  1-2: apply mult4_wseq; first [apply mult4_EncodeInt | apply mult4_EncodeHyper].
  - destruct (_ =? _); [apply mult4_EncodeFixedString | apply mult4_nil].
  - destruct (_ <=? _); [apply mult4_EncodeString | apply mult4_nil].
  - destruct (bytes_of xs); [apply mult4_EncodeFixedOpaque | apply mult4_nil].
  - apply mult4_encode_each; assumption.
  - destruct (bytes_of xs); [|apply mult4_nil].
    destruct (_ >? _); [apply mult4_nil | apply mult4_EncodeOpaque].
  - destruct (_ >? _); [apply mult4_nil|].
    apply mult4_wseq; [apply mult4_EncodeInt | apply mult4_encode_each; assumption].
  - destruct (_ >? _); [apply mult4_nil|].
    apply mult4_wseq; [apply mult4_EncodeInt | apply mult4_encode_pairs; assumption].
  - destruct p; [|apply mult4_EncodeInt].
    apply mult4_wseq; [apply mult4_EncodeInt | apply IHc].
  - destruct p; [apply IHc | apply mult4_nil].
  - apply mult4_encode_fields; assumption.
  - destruct (fs !! si) as [swv|]; [|apply mult4_nil].
    pose proof (IHc swv) as Hs. destruct (Encode f32_conv c swv) as [o1 err1].
    destruct err1; [eapply mult4_err; exact Hs|].
    destruct (switch_value k swv); [|eapply mult4_err; exact Hs].
    destruct (_ =? -1); [eapply mult4_err; exact Hs|].
    pose proof (mult4_encode_arm (Encode f32_conv) body (case_field z cases dflt) fs H) as Ha.
    destruct (encode_arm _ _ _ _) as [o2 err2].
    destruct Hs as [k1 Hk1], Ha as [k2 Hk2]. exists (k1 + k2)%nat.
    simpl in *. rewrite length_app, Hk1, Hk2. lia.
Qed.

(** A body of [n] bytes is followed by [p < 4] zero bytes, [n + p] a multiple of 4. *)
Lemma padded_body (buf : list Z) :
  exists p, buf ++ pad (Z.land (4 - Z.land (Z.of_nat (length buf)) 3) 3) = buf ++ repeat 0 p /\
            (p < 4)%nat /\ exists k, (length buf + p = 4 * k)%nat.
Proof.
  exists (Z.to_nat (Z.land (4 - Z.land (Z.of_nat (length buf)) 3) 3)).
  pose proof (padding_bound (Z.of_nat (length buf))).
  split; [reflexivity|]. split; [lia|]. apply padded_length.
Qed.

(** ** Round trips *)

(** Reading a narrow signed integer through [int32]. *)
Lemma to_signed_narrow (b x : Z) : 0 < b <= 32 -> to_signed b (to_signed 32 x) = to_signed b x.
Proof.
  intros Hb.
  rewrite <- (to_signed_of_mod b (to_signed 32 x)), <- (to_signed_of_mod b x). f_equal.
  assert (D : (2 ^ b | 2 ^ 32)).
  { exists (2 ^ (32 - b)). rewrite <- Z.pow_add_r by lia. f_equal. lia. }
  rewrite <- (Z.mod_mod_divide (to_signed 32 x) (2 ^ 32) (2 ^ b))
    by (auto; apply Z.pow_pos_nonneg; lia).
  rewrite to_signed_mod by lia.
  apply Z.mod_mod_divide; auto.
Qed.

Lemma wseq_ok (a b : W) (bs : list Z) :
  a >>> b = (bs, None) ->
  exists b1 b2, a = (b1, None) /\ b = (b2, None) /\ bs = b1 ++ b2.
Proof.
  destruct a as [o [e|]], b as [o2 e2]; unfold wseq; simpl; intros H; [discriminate H|].
  injection H as <- ->. eauto.
Qed.

Lemma word_decode (x : Z) (rest : list Z) :
  DecodeUnsignedInt (word_bytes x ++ rest) = (x mod 2 ^ 32, None, rest).
Proof. rewrite DecodeUnsignedInt_app by reflexivity. rewrite be_value_word. reflexivity. Qed.

Lemma hyper_decode (x : Z) (rest : list Z) :
  DecodeUnsignedHyper (hyper_bytes x ++ rest) = (x mod 2 ^ 64, None, rest).
Proof. rewrite DecodeUnsignedHyper_app by reflexivity. rewrite be_value_hyper. reflexivity. Qed.

Lemma map_insert {A B} (f : A -> B) (l : list A) (i : nat) (x : A) :
  map f (<[i := x]> l) = <[i := f x]> (map f l).
Proof.
  revert i. induction l as [|y r IH]; intros [|i]; simpl; try reflexivity.
  f_equal. apply IH.
Qed.

Lemma of_bytes_bytes_of (xs : list value) (s : list Z) : bytes_of xs = Some s -> of_bytes s = xs.
Proof.
  revert s. induction xs as [|x r IH]; intros s H; simpl in H.
  - injection H as <-. reflexivity.
  - destruct x; try discriminate H. destruct (bytes_of r) as [bs|] eqn:E; [|discriminate H].
    injection H as <-. simpl. f_equal. apply IH. reflexivity.
Qed.

Lemma bytes_of_length (xs : list value) (s : list Z) : bytes_of xs = Some s -> length s = length xs.
Proof.
  revert s. induction xs as [|x r IH]; intros s H; simpl in H.
  - injection H as <-. reflexivity.
  - destruct x; try discriminate H. destruct (bytes_of r) as [bs|] eqn:E; [|discriminate H].
    injection H as <-. simpl. f_equal. apply IH. reflexivity.
Qed.

Lemma bytes_of_is_byte (xs : list value) : Forall is_byte xs -> exists s, bytes_of xs = Some s.
Proof.
  induction 1 as [|x r Hx Hr IH]; [eexists; reflexivity|].
  destruct x; try contradiction. destruct IH as [s Hs]. simpl. rewrite Hs. eexists. reflexivity.
Qed.

(** The bytes [EncodeFixedOpaque] writes, read back by [DecodeFixedOpaque]. *)
Lemma DecodeFixedOpaque_roundtrip (buf s rest : list Z) :
  length buf = length s ->
  DecodeFixedOpaque buf (fst (EncodeFixedOpaque s) ++ rest) = (s, None, rest).
Proof.
  intros Hl. rewrite EncodeFixedOpaque_eq. simpl. rewrite <- app_assoc.
  unfold DecodeFixedOpaque. rewrite Hl, ReadFull_app by reflexivity.
  rewrite drop_ge by lia. rewrite app_nil_r.
  rewrite lPad_eq. set (p := Z.land (4 - Z.land (Z.of_nat (length s)) 3) 3).
  replace (Z.of_nat (length s) + p - Z.of_nat (length s)) with p by lia.
  pose proof (padding_bound (Z.of_nat (length s))) as B. fold p in B.
  destruct (Z.eqb_spec p 0) as [E|E].
  - rewrite E. reflexivity.
  - rewrite ReadFull_app by (rewrite length_pad; reflexivity). reflexivity.
Qed.

Lemma EncodeOpaque_ok (s : list Z) :
  Z.of_nat (length s) <= MaxUint32 ->
  EncodeOpaque s = (word_bytes (to_signed 32 (Z.of_nat (length s))) ++ fst (EncodeFixedOpaque s), None).
Proof.
  intros H. unfold EncodeOpaque. destruct (Z.gtb_spec (Z.of_nat (length s)) MaxUint32); [lia|].
  unfold EncodeUnsignedInt. rewrite EncodeInt_eq. reflexivity.
Qed.

Lemma EncodeString_ok (s : list Z) :
  Z.of_nat (length s) <= MaxUint32 -> EncodeString s = EncodeOpaque s.
Proof. reflexivity. Qed.

Lemma DecodeOpaque_roundtrip (maxLen : Z) (s rest : list Z) :
  Z.of_nat (length s) <= maxLen -> Z.of_nat (length s) <= MaxUint32 ->
  DecodeOpaque maxLen (fst (EncodeOpaque s) ++ rest) =
    (match s with [] => None | _ => Some s end, None, rest).
Proof.
  intros Hm Hu. rewrite EncodeOpaque_ok by exact Hu. cbn [fst]. rewrite <- app_assoc.
  unfold DecodeOpaque. rewrite word_decode.
  rewrite to_signed_mod by lia. rewrite Z.mod_small by (unfold MaxUint32 in Hu; lia).
  destruct (Z.eqb_spec (Z.of_nat (length s)) 0) as [E0|E0].
  - assert (s = []) as -> by (apply length_zero_iff_nil; lia). reflexivity.
  - assert (Hs : match s with [] => None | _ => Some s end = Some s) by (destruct s; [simpl in E0; lia | reflexivity]).
    rewrite Hs.
    assert (Hg : (Z.of_nat (length s) >? maxLen) = false) by (rewrite Z.gtb_ltb; apply Z.ltb_ge; lia).
    rewrite Hg. rewrite lPad_eq.
    rewrite EncodeFixedOpaque_eq. simpl fst. 
    rewrite ReadFull_app.
    2:{ rewrite length_app, length_pad.
        pose proof (padding_bound (Z.of_nat (length s))). lia. }
    rewrite fill_full.
    2:{ rewrite length_app, length_pad.
        pose proof (padding_bound (Z.of_nat (length s))). lia. }
    rewrite Nat2Z.id, take_app_length. reflexivity.
Qed.

Lemma feq32_canon (a b : Z) : feq32 (canon32 a) (canon32 b) = feq32 a b.
Proof.
  unfold canon32, feq32.
  destruct (is_nan32 a) eqn:Ea, (is_nan32 b) eqn:Eb; rewrite ?Ea, ?Eb; reflexivity.
Qed.

Lemma merge_key (kc : codec) (k d : value) : key_codec kc = true -> merge kc k d = k.
Proof. destruct kc; try discriminate; reflexivity. Qed.

Lemma go_eqb_key (kc : codec) (a b a' b' : value) :
  key_codec kc = true -> wf kc a -> wf kc b -> vnorm a' = vnorm a -> vnorm b' = vnorm b ->
  go_eqb a' b' = go_eqb a b.
Proof.
  intros Hk Ha Hb Ea Eb.
  destruct kc; try discriminate Hk; destruct a; try contradiction; destruct b; try contradiction;
    destruct a'; try discriminate Ea; destruct b'; try discriminate Eb;
    simpl in Ea, Eb; injection Ea; injection Eb; intros; subst; cbn [go_eqb].
  1-5, 7, 9-11: reflexivity.
  - rewrite <- (feq32_canon bits1 bits2), <- (feq32_canon bits bits0).
    rewrite H, H0. reflexivity.
  - rewrite <- (feq32_canon re1 re2), <- (feq32_canon im1 im2).
    rewrite <- (feq32_canon re re0), <- (feq32_canon im im0).
    rewrite H, H0, H1, H2. reflexivity.
Qed.

Section RoundTripLists.
Variable f32_conv : Z -> Z.

Lemma each_roundtrip (elem : codec) (IH : roundtrip f32_conv elem) :
  forall xs ds bs rest,
  Forall (wf elem) xs -> Forall (wf elem) ds -> length xs = length ds ->
  encode_each (Encode f32_conv elem) xs = (bs, None) ->
  exists ys, decode_each (Decode f32_conv elem) ds (bs ++ rest) = (ys, None, rest) /\
             map vnorm ys = map vnorm (zip_with (merge elem) xs ds).
Proof.
  induction xs as [|x xs IHx]; intros ds bs rest Hx Hd Hl He.
  - destruct ds; [|discriminate Hl]. injection He as <-. exists []. split; reflexivity.
  - destruct ds as [|d ds]; [discriminate Hl|]. simpl in He.
    destruct (wseq_ok _ _ _ He) as [b1 [b2 [E1 [E2 ->]]]].
    inversion Hx as [|? ? Wx Wxs]; inversion Hd as [|? ? Wd Wds]; subst.
    destruct (IH x d b1 (b2 ++ rest) Wx Wd E1) as [y [Dy Ny]].
    destruct (IHx ds b2 rest Wxs Wds (ltac:(simpl in Hl; lia)) E2) as [ys [Dys Nys]].
    exists (y :: ys). simpl. rewrite <- app_assoc, Dy, Dys. split; [reflexivity|].
    simpl. rewrite Ny, Nys. reflexivity.
Qed.

Lemma zip_with_repeat {A B C} (g : A -> B -> C) (xs : list A) (z : B) :
  zip_with g xs (repeat z (length xs)) = map (fun x => g x z) xs.
Proof. induction xs as [|x r IH]; simpl; [reflexivity | rewrite IH; reflexivity]. Qed.

Lemma all_fields_insert (P : codec -> value -> Prop) (fs : list (nat * codec)) (ds : list value)
    (j : nat) (y : value) :
  ~ In j (map fst fs) -> all_fields P fs ds -> all_fields P fs (<[j := y]> ds).
Proof.
  induction fs as [|[i fc] r IH]; simpl; [auto|].
  intros Hj [[x [Hx Px]] Hr]. split; [|apply IH; tauto].
  exists x. split; [|exact Px]. rewrite list_lookup_insert_ne by (intros ->; tauto). exact Hx.
Qed.

Lemma fields_roundtrip (fs : list (nat * codec))
    (IH : Forall (fun f => roundtrip f32_conv (snd f)) fs) :
  NoDup (map fst fs) ->
  forall vs ds1 ds2 bs rest,
  all_fields wf fs vs -> all_fields wf fs ds1 ->
  (forall j, In j (map fst fs) -> ds1 !! j = ds2 !! j) ->
  map vnorm ds1 = map vnorm ds2 ->
  encode_fields (Encode f32_conv) fs vs = (bs, None) ->
  exists ds1', decode_fields (Decode f32_conv) fs ds1 (bs ++ rest) = (ds1', None, rest) /\
               map vnorm ds1' = map vnorm (merge_fields merge fs vs ds2).
Proof.
  induction IH as [|[i fc] r IHf IHr IH]; intros Hnd vs ds1 ds2 bs rest Wv Wd Hj Hn He.
  - injection He as <-. exists ds1. split; [reflexivity | exact Hn].
  - simpl in Hnd. apply NoDup_cons in Hnd as [Hi Hnd].
    rewrite list_elem_of_In in Hi.
    simpl in Wv, Wd. destruct Wv as [[x [Hx Wx]] Wv]. destruct Wd as [[d [Hd Wd']] Wd].
    simpl in He. destruct (wseq_ok _ _ _ He) as [b1 [b2 [E1 [E2 ->]]]].
    rewrite Hx in E1. destruct (Encode f32_conv fc x) as [o [e|]] eqn:Ex; [unfold WithFieldError in E1; destruct e; discriminate E1|].
    injection E1 as ->.
    assert (Hd2 : ds2 !! i = Some d) by (rewrite <- (Hj i (or_introl eq_refl)); exact Hd).
    cbn [snd] in IHf. destruct (IHf x d b1 (b2 ++ rest) Wx Wd' Ex) as [x' [Dx Nx]].
    destruct (IH Hnd vs (<[i := x']> ds1) (<[i := merge fc x d]> ds2) b2 rest Wv
                (all_fields_insert _ _ _ _ _ Hi Wd)) as [ds' [Dr Nr]].
    + intros j Hjr. assert (j <> i) by (intros ->; tauto).
      rewrite !list_lookup_insert_ne by congruence. apply Hj. right. exact Hjr.
    + rewrite !map_insert, Hn, Nx. reflexivity.
    + exact E2.
    + exists ds'. simpl. rewrite Hd, <- app_assoc, Dx. split; [exact Dr|].
      rewrite Hx, Hd2. exact Nr.
Qed.

Lemma all_arms_insert (P : codec -> value -> Prop) (si : nat) (body : list (option (nat * codec)))
    (ds : list value) (y : value) :
  all_arms P si body ds -> all_arms P si body (<[si := y]> ds).
Proof.
  induction body as [|[[fi fc]|] r IH]; simpl; [auto| |auto].
  intros [[Hne [x [Hx Px]]] Hr]. split; [|apply IH; exact Hr].
  split; [exact Hne|]. exists x. rewrite list_lookup_insert_ne by congruence. auto.
Qed.

Lemma all_arms_tail (P : codec -> value -> Prop) (si : nat) (o : option (nat * codec))
    (r : list (option (nat * codec))) (vs : list value) :
  all_arms P si (o :: r) vs -> all_arms P si r vs.
Proof. destruct o as [[fi fc]|]; simpl; tauto. Qed.

Lemma arm_roundtrip (body : list (option (nat * codec)))
    (IH : Forall (fun o => match o with Some f => roundtrip f32_conv (snd f) | None => True end) body)
    (si : nat) :
  forall kk vs ds bs rest,
  all_arms wf si body vs -> all_arms wf si body ds ->
  encode_arm (Encode f32_conv) body kk vs = (bs, None) ->
  exists ds', decode_arm (Decode f32_conv) body kk ds (bs ++ rest) = (ds', None, rest) /\
              map vnorm ds' = map vnorm (merge_arm merge body kk vs ds).
Proof.
  induction IH as [|o r IHo IHr IH]; intros kk vs ds bs rest Wv Wd He; simpl in He; [discriminate He|].
  simpl. destruct (kk =? 0).
  - destruct o as [[fi fc]|]; [|discriminate He].
    simpl in Wv, Wd. destruct Wv as [[_ [x [Hx Wx]]] _]. destruct Wd as [[_ [d [Hd Wd]]] _].
    rewrite Hx in He. destruct (Encode f32_conv fc x) as [o [e|]] eqn:Ex;
      [unfold WithFieldError in He; destruct e; discriminate He|].
    injection He as ->.
    cbn [snd] in IHo. destruct (IHo x d bs rest Wx Wd Ex) as [x' [Dx Nx]].
    exists (<[fi := x']> ds). rewrite Hd, Dx, Hx. split; [reflexivity|].
    rewrite !map_insert, Nx. reflexivity.
  - apply IH; [eapply all_arms_tail; exact Wv | eapply all_arms_tail; exact Wd | exact He].
Qed.

Section Pairs.
Variables (kc vc : codec) (kz vz : value).
Hypothesis Hkey : key_codec kc = true.

(** A decoded entry against the entry it was encoded from. *)
Let entry_rel (p q : value * value) : Prop :=
  vnorm (fst p) = vnorm (fst q) /\ vnorm (snd p) = vnorm (merge vc (snd q) vz) /\ wf kc (fst q).

Lemma existsb_keys (m seen : list (value * value)) (k k' : value) :
  wf kc k -> vnorm k' = vnorm k -> Forall2 entry_rel m seen ->
  existsb (fun '(a, _) => go_eqb a k') m = existsb (fun '(a, _) => go_eqb a k) seen.
Proof.
  intros Wk Ek. induction 1 as [|[a x] [b y] m seen [Ea [_ Wb]] _ IH]; [reflexivity|].
  simpl. simpl in Ea, Wb. rewrite (go_eqb_key kc b k a k' Hkey Wb Wk Ea Ek), IH. reflexivity.
Qed.

Lemma pairs_roundtrip (IHk : roundtrip f32_conv kc) (IHv : roundtrip f32_conv vc)
    (Wkz : wf kc kz) (Wvz : wf vc vz) :
  forall kvs seen m bs rest,
  Forall (fun kx => wf kc (fst kx) /\ wf vc (snd kx)) kvs ->
  Forall2 entry_rel m seen ->
  keys_fresh seen kvs = true ->
  encode_pairs (Encode f32_conv kc) (Encode f32_conv vc) kvs = (bs, None) ->
  exists m', decode_pairs (Decode f32_conv kc) (Decode f32_conv vc) kz vz (length kvs) m (bs ++ rest)
               = (m', None, rest) /\ Forall2 entry_rel m' (seen ++ kvs).
Proof.
  induction kvs as [|[k x] r IH]; intros seen m bs rest Wkvs Hm Hf He.
  - injection He as <-. exists m. rewrite app_nil_r. split; [reflexivity | exact Hm].
  - simpl in He. destruct (wseq_ok _ _ _ He) as [b1 [b23 [E1 [E23 ->]]]].
    destruct (wseq_ok _ _ _ E23) as [b2 [b3 [E2 [E3 ->]]]].
    inversion Wkvs as [|? ? [Wk Wx] Wr]; subst. simpl in Wk, Wx.
    simpl in Hf. apply andb_prop in Hf as [Hn Hf].
    destruct (IHk k kz b1 (b2 ++ b3 ++ rest) Wk Wkz E1) as [k' [Dk Nk]].
    destruct (IHv x vz b2 (b3 ++ rest) Wx Wvz E2) as [x' [Dx Nx]].
    rewrite merge_key in Nk by exact Hkey.
    assert (Hm' : Forall2 entry_rel (m ++ [(k', x')]) (seen ++ [(k, x)])).
    { apply Forall2_app; [exact Hm|]. constructor; [|constructor]. split; [exact Nk|]. split; assumption. }
    destruct (IH (seen ++ [(k, x)]) (m ++ [(k', x')]) b3 rest Wr Hm' Hf E3) as [m' [Dm Rm]].
    exists m'. simpl. rewrite <- !app_assoc, Dk, Dx.
    unfold SetMapIndex. rewrite (existsb_keys m seen k k' Wk Nk Hm).
    apply negb_true_iff in Hn. rewrite Hn. split; [exact Dm|].
    rewrite <- app_assoc in Rm. exact Rm.
Qed.

Lemma entries_vnorm (m kvs : list (value * value)) :
  Forall2 entry_rel m kvs ->
  map (fun '(k, x) => (vnorm k, vnorm x)) m =
  map (fun '(k, x) => (vnorm k, vnorm x)) (map (fun '(k, x) => (merge kc k kz, merge vc x vz)) kvs).
Proof.
  induction 1 as [|[a x] [b y] m kvs [Ea [Ex _]] _ IH]; [reflexivity|].
  simpl in *. rewrite IH, merge_key by exact Hkey. rewrite Ea, Ex. reflexivity.
Qed.

End Pairs.

End RoundTripLists.

Section RoundTrip.
Variable f32_conv : Z -> Z.
Hypothesis f32_range : forall x, 0 <= x < 2 ^ 32 -> 0 <= f32_conv x < 2 ^ 32.
Hypothesis f32_canon : forall x, 0 <= x < 2 ^ 32 -> canon32 (f32_conv x) = canon32 x.

Lemma f32_twice (x : Z) : 0 <= x < 2 ^ 32 ->
  canon32 (f32_conv (to_signed 32 (f32_conv x) mod 2 ^ 32)) = canon32 x.
Proof.
  intros Hx. pose proof (f32_range x Hx) as Hr.
  rewrite to_signed_mod, Z.mod_small by lia.
  rewrite f32_canon by exact Hr. apply f32_canon, Hx.
Qed.

Lemma rt_bool : roundtrip f32_conv boolCodec.
Proof.
  intros v d bs rest Wv _ He. destruct v; try contradiction. simpl in He.
  unfold EncodeBool in He. rewrite EncodeInt_eq in He. injection He as <-.
  eexists. split; [|reflexivity]. cbn [Decode]. unfold DecodeBool. rewrite word_decode.
  destruct b; reflexivity.
Qed.

Lemma rt_int (w : width) : roundtrip f32_conv (intCodec w).
Proof.
  intros v d bs rest Wv _ He. destruct v; try contradiction. simpl in Wv, He.
  rewrite EncodeInt_eq in He. injection He as <-.
  assert (Hb : 0 < width_bits w <= 32) by (destruct w; simpl; lia).
  exists (VInt i). split; [|reflexivity]. cbn [Decode]. unfold DecodeInt. rewrite word_decode.
  rewrite to_signed_of_mod, !to_signed_narrow by lia. rewrite to_signed_id by lia. reflexivity.
Qed.

Lemma rt_uint (w : width) : roundtrip f32_conv (uintCodec w).
Proof.
  intros v d bs rest Wv _ He. destruct v; try contradiction. simpl in Wv, He.
  rewrite EncodeUnsignedInt_eq in He. injection He as <-.
  assert (Hb : 2 ^ width_bits w <= 2 ^ 32) by (destruct w; simpl; lia).
  exists (VInt i). split; [|reflexivity]. cbn [Decode]. rewrite word_decode.
  unfold to_unsigned. rewrite to_signed_mod by lia.
  rewrite (Z.mod_small i (2 ^ 32)) by lia. rewrite (Z.mod_small i (2 ^ 32)) by lia.
  rewrite (Z.mod_small i) by lia. reflexivity.
Qed.

Lemma rt_hyper : roundtrip f32_conv hyperCodec.
Proof.
  intros v d bs rest Wv _ He. destruct v; try contradiction. simpl in Wv, He.
  rewrite EncodeHyper_eq in He. injection He as <-.
  exists (VInt i). split; [|reflexivity]. cbn [Decode]. unfold DecodeHyper. rewrite hyper_decode.
  rewrite to_signed_of_mod, to_signed_id by lia. reflexivity.
Qed.

Lemma rt_uhyper : roundtrip f32_conv uhyperCodec.
Proof.
  intros v d bs rest Wv _ He. destruct v; try contradiction. simpl in Wv, He.
  unfold EncodeUnsignedHyper in He. rewrite EncodeHyper_eq in He. injection He as <-.
  exists (VInt i). split; [|reflexivity]. cbn [Decode]. rewrite hyper_decode.
  rewrite to_signed_mod, Z.mod_small by lia. reflexivity.
Qed.

Lemma rt_float : roundtrip f32_conv floatCodec.
Proof.
  intros v d bs rest Wv _ He. destruct v; try contradiction. simpl in Wv, He.
  unfold EncodeFloat in He. rewrite EncodeUnsignedInt_eq in He. injection He as <-.
  eexists. split.
  - cbn [Decode]. unfold DecodeFloat. rewrite word_decode. reflexivity.
  - cbn [vnorm merge]. rewrite f32_twice by exact Wv. reflexivity.
Qed.

Lemma rt_double : roundtrip f32_conv doubleCodec.
Proof.
  intros v d bs rest Wv _ He. destruct v; try contradiction. simpl in Wv, He.
  unfold EncodeDouble, EncodeUnsignedHyper in He. rewrite EncodeHyper_eq in He. injection He as <-.
  exists (VFloat64 bits). split; [|reflexivity]. cbn [Decode]. unfold DecodeDouble.
  rewrite hyper_decode, to_signed_mod, Z.mod_small by lia. reflexivity.
Qed.

Lemma rt_c64 : roundtrip f32_conv complex64Codec.
Proof.
  intros v d bs rest Wv _ He. destruct v; try contradiction. simpl in Wv. cbn [Encode] in He.
  unfold EncodeFloat in He. rewrite !EncodeUnsignedInt_eq in He.
  destruct (wseq_ok _ _ _ He) as [b1 [b2 [E1 [E2 ->]]]]. injection E1 as <-. injection E2 as <-.
  eexists. split.
  - cbn [Decode]. unfold DecodeFloat. rewrite <- app_assoc, !word_decode. reflexivity.
  - cbn [vnorm merge]. rewrite !f32_twice by tauto. reflexivity.
Qed.

Lemma rt_c128 : roundtrip f32_conv complex128Codec.
Proof.
  intros v d bs rest Wv _ He. destruct v; try contradiction. simpl in Wv. cbn [Encode] in He.
  unfold EncodeDouble, EncodeUnsignedHyper in He. rewrite !EncodeHyper_eq in He.
  destruct (wseq_ok _ _ _ He) as [b1 [b2 [E1 [E2 ->]]]]. injection E1 as <-. injection E2 as <-.
  exists (VComplex128 re im). split; [|reflexivity]. cbn [Decode]. unfold DecodeDouble.
  rewrite <- app_assoc, !hyper_decode, !to_signed_mod, !(Z.mod_small re), !(Z.mod_small im) by lia.
  reflexivity.
Qed.

Lemma rt_fstr (len : Z) : roundtrip f32_conv (fixedStringCodec len).
Proof.
  intros v d bs rest Wv _ He. destruct v; try contradiction. simpl in Wv. cbn [Encode] in He.
  destruct (Z.eqb_spec (Z.of_nat (length s)) len) as [El|]; [|discriminate He].
  pose proof (f_equal fst He) as Hbs. cbn [fst] in Hbs.
  change (EncodeFixedString s) with (EncodeFixedOpaque s) in Hbs. subst bs.
  exists (VString s). split; [|reflexivity]. cbn [Decode]. unfold DecodeFixedString.
  rewrite DecodeFixedOpaque_roundtrip; [reflexivity|].
  rewrite repeat_length. lia.
Qed.

Lemma rt_vstr (maxlen origMax : Z) : roundtrip f32_conv (varStringCodec maxlen origMax).
Proof.
  intros v d bs rest Wv _ He. destruct v; try contradiction. simpl in Wv.
  destruct Wv as [[<- Hm] _]. cbn [Encode] in He.
  destruct (Z.leb_spec (Z.of_nat (length s)) maxlen) as [El|]; [|discriminate He].
  rewrite EncodeString_ok in He by lia.
  pose proof (f_equal fst He) as Hbs. cbn [fst] in Hbs. subst bs.
  exists (VString s). split; [|reflexivity]. cbn [Decode]. unfold DecodeString.
  rewrite DecodeOpaque_roundtrip by lia. destruct s; reflexivity.
Qed.

Lemma rt_oarr (len : Z) : roundtrip f32_conv (opaqueArrayCodec len).
Proof.
  intros v d bs rest Wv Wd He. destruct v; try contradiction. destruct d; try contradiction.
  simpl in Wv, Wd. destruct Wv as [Lv Bv], Wd as [Ld Bd]. cbn [Encode] in He.
  destruct (bytes_of xs) as [s|] eqn:Es; [|discriminate He].
  destruct (bytes_of_is_byte xs0 Bd) as [s0 Es0].
  pose proof (f_equal fst He) as Hbs. cbn [fst] in Hbs. subst bs.
  exists (VArray xs). split; [|reflexivity]. cbn [Decode]. rewrite Es0.
  rewrite DecodeFixedOpaque_roundtrip.
  - rewrite (of_bytes_bytes_of xs s Es). reflexivity.
  - rewrite (bytes_of_length _ _ Es), (bytes_of_length _ _ Es0). lia.
Qed.

Lemma rt_oslice (maxlen origMax : Z) : roundtrip f32_conv (opaqueSliceCodec maxlen origMax).
Proof.
  intros v d bs rest Wv _ He. destruct v; try contradiction. simpl in Wv.
  destruct Wv as [[<- Hm] [Bv Nv]]. cbn [Encode] in He.
  destruct (bytes_of xs) as [s|] eqn:Es; [|discriminate He].
  destruct (Z.gtb_spec (Z.of_nat (length s)) maxlen) as [|El]; [discriminate He|].
  pose proof (f_equal fst He) as Hbs. cbn [fst] in Hbs. subst bs.
  eexists. split.
  - cbn [Decode]. rewrite DecodeOpaque_roundtrip by lia. reflexivity.
  - rewrite <- (of_bytes_bytes_of xs s Es). destruct s; reflexivity.
Qed.

Lemma Forall_repeat {A} (P : A -> Prop) (z : A) (n : nat) : P z -> Forall P (repeat z n).
Proof. intros Hz. induction n; simpl; constructor; assumption. Qed.

Lemma rt_slice (elem : codec) (z : value) (maxlen origMax : Z) :
  roundtrip f32_conv elem -> roundtrip f32_conv (sliceCodec elem z maxlen origMax).
Proof.
  intros IH v d bs rest Wv _ He. destruct v; try contradiction. simpl in Wv.
  destruct Wv as [[<- Hm] [Wz [Wxs Nv]]]. cbn [Encode] in He.
  destruct (Z.gtb_spec (Z.of_nat (length xs)) maxlen) as [|El]; [discriminate He|].
  destruct (wseq_ok _ _ _ He) as [b1 [b2 [E1 [E2 ->]]]].
  rewrite EncodeUnsignedInt_eq in E1. injection E1 as <-.
  cbn [Decode]. rewrite <- app_assoc, word_decode, to_signed_mod, Z.mod_small by (unfold MaxUint32 in Hm; lia).
  destruct xs as [|x xs'].
  - simpl in E2. injection E2 as <-. eexists. split; reflexivity.
  - assert (Hl : (Z.of_nat (length (x :: xs')) =? 0) = false) by (simpl; lia).
    assert (Hg : (Z.of_nat (length (x :: xs')) >? to_unsigned 32 maxlen) = false).
    { unfold to_unsigned. rewrite Z.mod_small by (unfold MaxUint32 in Hm; lia).
      rewrite Z.gtb_ltb. apply Z.ltb_ge. lia. }
    rewrite Hl, Hg, Nat2Z.id.
    destruct (each_roundtrip f32_conv elem IH (x :: xs') (repeat z (length (x :: xs'))) b2 rest
                Wxs (Forall_repeat _ z _ Wz) (eq_sym (repeat_length _ _)) E2) as [ys [Dy Ny]].
    rewrite Dy. exists (VSlice false ys). split; [reflexivity|].
    cbn [vnorm merge]. rewrite Ny, zip_with_repeat. reflexivity.
Qed.

Lemma rt_arr (elem : codec) (len : Z) :
  roundtrip f32_conv elem -> roundtrip f32_conv (arrayCodec elem len).
Proof.
  intros IH v d bs rest Wv Wd He. destruct v; try contradiction. destruct d; try contradiction.
  simpl in Wv, Wd. destruct Wv as [Lv Wxs], Wd as [Ld Wds]. cbn [Encode] in He.
  destruct (each_roundtrip f32_conv elem IH xs xs0 bs rest Wxs Wds ltac:(lia) He) as [ys [Dy Ny]].
  exists (VArray ys). split.
  - cbn [Decode]. rewrite Dy. reflexivity.
  - cbn [vnorm merge]. rewrite Ny. reflexivity.
Qed.

Lemma rt_map (kc vc : codec) (kz vz : value) (maxlen origMax : Z) :
  roundtrip f32_conv kc -> roundtrip f32_conv vc ->
  roundtrip f32_conv (mapCodec kc vc kz vz maxlen origMax).
Proof.
  intros IHk IHv v d bs rest Wv _ He. destruct v; try contradiction. simpl in Wv.
  destruct Wv as [[<- Hm] [Hk [Wkz [Wvz [Wkvs Hf]]]]]. cbn [Encode] in He.
  destruct (Z.gtb_spec (Z.of_nat (length kvs)) maxlen) as [|El]; [discriminate He|].
  destruct (wseq_ok _ _ _ He) as [b1 [b2 [E1 [E2 ->]]]].
  rewrite EncodeUnsignedInt_eq in E1. injection E1 as <-.
  cbn [Decode]. rewrite <- app_assoc, word_decode, to_signed_mod, Z.mod_small by (unfold MaxUint32 in Hm; lia).
  assert (Hg : (Z.of_nat (length kvs) >? to_unsigned 32 maxlen) = false).
  { unfold to_unsigned. rewrite Z.mod_small by (unfold MaxUint32 in Hm; lia).
    rewrite Z.gtb_ltb. apply Z.ltb_ge. lia. }
  rewrite Hg, Nat2Z.id.
  assert (H0 : Forall2 (fun p q => vnorm (fst p) = vnorm (fst q) /\
                 vnorm (snd p) = vnorm (merge vc (snd q) vz) /\ wf kc (fst q)) [] [])
    by constructor.
  destruct (pairs_roundtrip f32_conv kc vc kz vz Hk IHk IHv Wkz Wvz kvs [] [] b2 rest Wkvs H0 Hf E2)
    as [m' [Dm Rm]].
  rewrite Dm. exists (VMap m'). split; [reflexivity|].
  cbn [vnorm merge]. f_equal. exact (entries_vnorm kc vc kz vz Hk m' kvs Rm).
Qed.

Lemma rt_opt (elem : codec) : roundtrip f32_conv elem -> roundtrip f32_conv (optCodec elem).
Proof.
  intros IH v d bs rest Wv Wd He. destruct v; try contradiction. simpl in Wv.
  destruct Wv as [Wn Wp]. cbn [Encode] in He. destruct p as [x|].
  - destruct Wp as [Wp|Wp]; [discriminate Wp|].
    destruct (wseq_ok _ _ _ He) as [b1 [b2 [E1 [E2 ->]]]].
    unfold EncodeBool in E1. rewrite EncodeInt_eq in E1. injection E1 as <-.
    assert (Wd' : wf elem d).
    { destruct d; try contradiction. destruct Wd as [Wdn [->|Wdp]]; assumption. }
    destruct (IH _ _ b2 rest Wp Wd' E2) as [v' [Dv Nv]].
    exists v'. split.
    + cbn [Decode]. unfold DecodeBool. rewrite <- app_assoc, word_decode. exact Dv.
    + rewrite Nv. reflexivity.
  - unfold EncodeBool in He. rewrite EncodeInt_eq in He. injection He as <-.
    exists (VPtr None). split; [|reflexivity].
    cbn [Decode]. unfold DecodeBool. rewrite word_decode. reflexivity.
Qed.

Lemma rt_ptr (elem : codec) (z : value) :
  roundtrip f32_conv elem -> roundtrip f32_conv (ptrCodec elem z).
Proof.
  intros IH v d bs rest Wv _ He. destruct v; try contradiction. simpl in Wv.
  destruct Wv as [Wz Wp]. cbn [Encode] in He. destruct p as [x|]; [|discriminate He].
  destruct (IH x z bs rest (Wp x eq_refl) Wz He) as [x' [Dx Nx]].
  exists (VPtr (Some x')). split.
  - cbn [Decode]. rewrite Dx. reflexivity.
  - cbn [vnorm merge option_map]. rewrite Nx. reflexivity.
Qed.

Lemma rt_struct (fs : list (nat * codec)) :
  Forall (fun f => roundtrip f32_conv (snd f)) fs -> roundtrip f32_conv (structCodec fs).
Proof.
  intros IH v d bs rest Wv Wd He. destruct v; try contradiction. destruct d; try contradiction.
  simpl in Wv, Wd. destruct Wv as [Nd Wvs], Wd as [_ Wds]. cbn [Encode] in He.
  destruct (fields_roundtrip f32_conv fs IH Nd fs0 fs1 fs1 bs rest Wvs Wds
              (fun _ _ => eq_refl) eq_refl He) as [ds' [Dd Nd']].
  exists (VStruct ds'). split.
  - cbn [Decode]. rewrite Dd. reflexivity.
  - cbn [vnorm merge]. rewrite Nd'. reflexivity.
Qed.

Lemma rt_error (e : xerror) : roundtrip f32_conv (errorCodec e).
Proof. intros v d bs rest _ _ He. destruct v; discriminate He. Qed.

Lemma switch_merge (sc : codec) (k : switchKind) (sw d : value) :
  switch_codec sc k -> merge sc sw d = sw.
Proof. intros [[-> _]|[[-> _]|[-> _]]]; reflexivity. Qed.

Lemma switch_vnorm (sc : codec) (k : switchKind) (sw x : value) :
  switch_codec sc k -> wf sc sw -> vnorm x = vnorm sw -> x = sw.
Proof.
  intros [[-> _]|[[-> _]|[-> _]]] Hw Hx; destruct sw; try contradiction;
    destruct x; simpl in Hx; try discriminate Hx; exact Hx.
Qed.

Lemma rt_union (si : nat) (sc : codec) (body : list (option (nat * codec))) (cases : list (Z * Z))
    (dflt : Z) (k : switchKind) :
  roundtrip f32_conv sc ->
  Forall (fun o => match o with Some f => roundtrip f32_conv (snd f) | None => True end) body ->
  roundtrip f32_conv (unionCodec (si, sc) body cases dflt k).
Proof.
  intros IHsc IHb v d bs rest Wv Wd He. destruct v; try contradiction. destruct d; try contradiction.
  simpl in Wv, Wd. destruct Wv as [Hsc [[sw [Hsi Wsw]] Wva]], Wd as [_ [[dsw [Hdsi Wdsw]] Wda]].
  cbn [Encode] in He. rewrite Hsi in He.
  destruct (Encode f32_conv sc sw) as [o1 [e1|]] eqn:E1.
  { unfold WithFieldError in He. destruct e1; discriminate He. }
  destruct (switch_value k sw) as [s|] eqn:Es; [|discriminate He].
  destruct (case_field s cases dflt =? -1) eqn:Ec; [discriminate He|].
  destruct (encode_arm (Encode f32_conv) body (case_field s cases dflt) fs) as [o2 e2] eqn:E2.
  injection He as <- ->.
  destruct (IHsc sw dsw o1 (o2 ++ rest) Wsw Wdsw E1) as [swv [Dsw Nsw]].
  rewrite (switch_merge sc k sw dsw Hsc) in Nsw.
  rewrite (switch_vnorm sc k sw swv Hsc Wsw Nsw) in Dsw.
  destruct (arm_roundtrip f32_conv body IHb si (case_field s cases dflt) fs (<[si:=sw]> fs0) o2 rest
              Wva (all_arms_insert _ _ _ _ _ Wda) E2) as [ds' [Dd Nd]].
  exists (VStruct ds'). split.
  - cbn [Decode]. rewrite Hdsi, <- app_assoc, Dsw, Es, Ec, Dd. reflexivity.
  - cbn [vnorm merge]. rewrite Hsi, Hdsi, Es, (switch_merge sc k sw dsw Hsc), Nd. reflexivity.
Qed.

(** Every codec round-trips its well-formed values. *)
Lemma roundtrip_all : forall c, roundtrip f32_conv c.
Proof.
  apply codec_ind'.
  - exact rt_bool.
  - exact rt_int.
  - exact rt_uint.
  - exact rt_hyper.
  - exact rt_uhyper.
  - exact rt_float.
  - exact rt_double.
  - exact rt_c64.
  - exact rt_c128.
  - exact rt_fstr.
  - exact rt_vstr.
  - exact rt_oarr.
  - exact rt_arr.
  - exact rt_oslice.
  - exact rt_slice.
  - exact rt_map.
  - exact rt_opt.
  - exact rt_ptr.
  - exact rt_struct.
  - exact rt_union.
  - exact rt_error.
Qed.

End RoundTrip.

(** * Claims *)




(** C2: every encoding writes a number of bytes divisible by 4, whatever
    the codec and the value (also when it stops at an error); the bodies
    written by [EncodeFixedOpaque] and [EncodeFixedString] are followed by
    fewer than 4 zero bytes, exactly enough to round the length up to a
    multiple of 4. *)
Theorem encode_length_mult4 :
  (forall (f32_conv : Z -> Z) (c : codec) (v : value),
      exists k, length (fst (Encode f32_conv c v)) = (4 * k)%nat) /\
  (forall buf : list Z, exists p,
      EncodeFixedOpaque buf = (buf ++ repeat 0 p, None) /\ (p < 4)%nat /\
      exists k, (length buf + p = 4 * k)%nat) /\
  (forall s : list Z, exists p,
      EncodeFixedString s = (s ++ repeat 0 p, None) /\ (p < 4)%nat /\
      exists k, (length s + p = 4 * k)%nat).
Proof.
  split; [|split].
  - intros f c v. apply Encode_mult4.
  - intros buf. destruct (padded_body buf) as [p [Hp Hr]].
    exists p. rewrite EncodeFixedOpaque_eq, Hp. auto.
  - intros s. destruct (padded_body s) as [p [Hp Hr]].
    exists p. rewrite EncodeFixedString_eq, Hp. auto.
Qed.

(** C3: a boolean is read from one 4-byte word: the value 0 decodes to
    [false], 1 to [true], and every other value (as [00 00 00 02]) is
    refused with [ErrInvalidValue]; the bytes after the word are left. *)
Theorem decode_bool_word (f32_conv : Z -> Z) (d : value) (word rest : list Z)
    (Hw : length word = 4%nat) :
  (be_value word = 0 -> Decode f32_conv boolCodec d (word ++ rest) = (VBool false, None, rest)) /\
  (be_value word = 1 -> Decode f32_conv boolCodec d (word ++ rest) = (VBool true, None, rest)) /\
  (be_value word <> 0 -> be_value word <> 1 ->
     Decode f32_conv boolCodec d (word ++ rest) = (VBool false, Some ErrInvalidValue, rest)) /\
  Decode f32_conv boolCodec d ([0; 0; 0; 2] ++ rest) = (VBool false, Some ErrInvalidValue, rest).
Proof.
  assert (E : forall w, length w = 4%nat ->
            Decode f32_conv boolCodec d (w ++ rest) =
            (VBool (if be_value w =? 0 then false else be_value w =? 1),
             if be_value w =? 0 then None else if be_value w =? 1 then None
             else Some ErrInvalidValue, rest)).
  { intros w Hl. simpl. unfold DecodeBool. rewrite DecodeUnsignedInt_app by exact Hl.
    destruct (be_value w =? 0); [reflexivity|]. destruct (be_value w =? 1); reflexivity. }
  split; [|split; [|split]].
  - intros H. rewrite E, H by exact Hw. reflexivity.
  - intros H. rewrite E, H by exact Hw. reflexivity.
  - intros H0 H1. rewrite E by exact Hw.
    apply Z.eqb_neq in H0, H1. rewrite H0, H1. reflexivity.
  - rewrite E by reflexivity. reflexivity.
Qed.

Lemma decode_bool_word_witness :
  length [0; 0; 0; 2] = 4%nat /\
  Decode (fun x => x) boolCodec (VBool true) ([0; 0; 0; 2] ++ [7]) =
  (VBool false, Some ErrInvalidValue, [7]).
Proof.
  split; [reflexivity|].
  destruct (decode_bool_word (fun x => x) (VBool true) [0; 0; 0; 2] [7] eq_refl)
    as [_ [_ [H _]]].
  apply H; vm_compute; discriminate.
Defined.

(** C10: an 8- or 16-bit integer field reads a whole 4-byte word and keeps
    its value modulo [2^8] or [2^16], without error: an [int8]/[int16]
    field gets the signed representative of that residue (congruent to the
    word's value, within the field's range), a [uint8]/[uint16] field the
    residue itself; the bytes after the word are left unread. *)
Theorem decode_narrow_truncates (f32_conv : Z -> Z) (w : width) (d : value)
    (word rest : list Z) (Hwidth : w = W8 \/ w = W16) (Hw : length word = 4%nat) :
  Decode f32_conv (intCodec w) d (word ++ rest) =
    (VInt (to_signed (width_bits w) (be_value word)), None, rest) /\
  to_signed (width_bits w) (be_value word) mod 2 ^ width_bits w = be_value word mod 2 ^ width_bits w /\
  - 2 ^ (width_bits w - 1) <= to_signed (width_bits w) (be_value word) < 2 ^ (width_bits w - 1) /\
  Decode f32_conv (uintCodec w) d (word ++ rest) =
    (VInt (be_value word mod 2 ^ width_bits w), None, rest).
Proof.
  assert (Hb : 0 < width_bits w <= 32) by (destruct Hwidth as [-> | ->]; simpl; lia).
  split; [|split; [|split]].
  - simpl. unfold DecodeInt. rewrite DecodeUnsignedInt_app by exact Hw.
    rewrite to_signed_narrow by exact Hb. reflexivity.
  - apply to_signed_mod. lia.
  - apply to_signed_range. lia.
  - simpl. rewrite DecodeUnsignedInt_app by exact Hw. reflexivity.
Qed.

Lemma decode_narrow_truncates_witness :
  (W8 = W8 \/ W8 = W16) /\ length [0; 0; 1; 255] = 4%nat /\
  Decode (fun x => x) (intCodec W8) (VInt 0) ([0; 0; 1; 255] ++ []) = (VInt (-1), None, []).
Proof.
  split; [left; reflexivity|]. split; [reflexivity|].
  destruct (decode_narrow_truncates (fun x => x) W8 (VInt 0) [0; 0; 1; 255] []
              (or_introl eq_refl) eq_refl) as [H _].
  rewrite H. vm_compute. reflexivity.
Defined.

Lemma LengthError_Is (a m : Z) : m < a -> errors_Is (LengthError a m) ErrLengthExceedsMax = true.
Proof.
  intros H. unfold errors_Is. destruct (xerror_eq_dec _ _) as [E|_]; [discriminate E|].
  rewrite Z.gtb_ltb. apply Z.ltb_lt. exact H.
Qed.

(** C4: with a schema maximum [M] (a [maxlen:M] tag, so the codec's limit
    and the limit it reports are both [M]), encoding a string, a byte slice
    or a slice longer than [M] writes nothing and fails with a
    [LengthError] that [errors.Is] matches to [ErrLengthExceedsMax]; decoding
    a string, byte slice or slice whose length word exceeds [M] fails with
    the same error, after consuming only the length word. *)
Theorem length_limit_enforced (f32_conv : Z -> Z) (M : Z) (HM : 0 <= M <= MaxUint32) :
  (forall s, M < Z.of_nat (length s) ->
     Encode f32_conv (varStringCodec M M) (VString s) =
       ([], Some (LengthError (Z.of_nat (length s)) M))) /\
  (forall isnil xs bs, bytes_of xs = Some bs -> M < Z.of_nat (length bs) ->
     Encode f32_conv (opaqueSliceCodec M M) (VSlice isnil xs) =
       ([], Some (LengthError (Z.of_nat (length bs)) M))) /\
  (forall elem z isnil xs, M < Z.of_nat (length xs) ->
     Encode f32_conv (sliceCodec elem z M M) (VSlice isnil xs) =
       ([], Some (LengthError (Z.of_nat (length xs)) M))) /\
  (forall a, M < a -> errors_Is (LengthError a M) ErrLengthExceedsMax = true) /\
  (forall c d word rest,
     (c = varStringCodec M M \/ c = opaqueSliceCodec M M \/
      exists elem z, c = sliceCodec elem z M M) ->
     length word = 4%nat -> M < be_value word ->
     exists v', Decode f32_conv c d (word ++ rest) = (v', Some (LengthError (be_value word) M), rest)).
Proof.
  split; [|split; [|split; [|split]]].
  - intros s Hs. simpl. destruct (Z.leb_spec (Z.of_nat (length s)) M); [lia|]. reflexivity.
  - intros isnil xs bs Hb Hl. simpl. rewrite Hb.
    destruct (Z.gtb_spec (Z.of_nat (length bs)) M); [reflexivity | lia].
  - intros elem z isnil xs Hl. simpl.
    destruct (Z.gtb_spec (Z.of_nat (length xs)) M); [reflexivity | lia].
  - intros a Ha. apply LengthError_Is. exact Ha.
  - intros c d word rest Hc Hw Hgt.
    assert (Hl0 : (be_value word =? 0) = false) by (apply Z.eqb_neq; lia).
    assert (Hlm : (be_value word >? M) = true) by (rewrite Z.gtb_ltb; apply Z.ltb_lt; lia).
    destruct Hc as [-> | [-> | [elem [z ->]]]]; simpl.
    + unfold DecodeString, DecodeOpaque. rewrite DecodeUnsignedInt_app by exact Hw.
      rewrite Hl0, Hlm. eexists. reflexivity.
    + unfold DecodeOpaque. rewrite DecodeUnsignedInt_app by exact Hw.
      rewrite Hl0, Hlm. eexists. reflexivity.
    + rewrite DecodeUnsignedInt_app by exact Hw. rewrite Hl0.
      unfold to_unsigned. rewrite Z.mod_small by (unfold MaxUint32 in HM; lia).
      rewrite Hlm. eexists. reflexivity.
Qed.

Lemma length_limit_enforced_witness :
  (0 <= 4 <= MaxUint32) /\
  Encode (fun x => x) (varStringCodec 4 4) (VString [72; 101; 108; 108; 111]) =
    ([], Some (LengthError 5 4)).
Proof.
  split; [vm_compute; split; discriminate|].
  destruct (length_limit_enforced (fun x => x) 4 ltac:(vm_compute; split; discriminate))
    as [H _].
  apply (H [72; 101; 108; 108; 111]). vm_compute. reflexivity.
Defined.

(** C8: for a union without a default arm ([defaultCase = -1]) whose case
    table has no entry for the discriminant, encoding writes the
    discriminant and stops with [ErrUnionSwitchArmUndefined] (wrapped in a
    [FieldError], which [errors.Is] sees through); decoding stores the
    discriminant, stops with the same error and leaves everything after the
    discriminant unread, no arm being decoded. *)
Theorem union_arm_undefined (f32_conv : Z -> Z) (si : nat) (sc : codec)
    (body : list (option (nat * codec))) (cases : list (Z * Z)) (k : switchKind)
    (vs : list value) (swv : value) (s : Z) (Hs : switch_value k swv = Some s)
    (Hcase : lookup_case s cases = None) :
  (forall o1, vs !! si = Some swv -> Encode f32_conv sc swv = (o1, None) ->
     Encode f32_conv (unionCodec (si, sc) body cases (-1) k) (VStruct vs) =
       (o1, Some (FieldError ErrUnionSwitchArmUndefined))) /\
  (forall d src rest, vs !! si = Some d -> Decode f32_conv sc d src = (swv, None, rest) ->
     Decode f32_conv (unionCodec (si, sc) body cases (-1) k) (VStruct vs) src =
       (VStruct (<[si := swv]> vs), Some (FieldError ErrUnionSwitchArmUndefined), rest)) /\
  errors_Is (FieldError ErrUnionSwitchArmUndefined) ErrUnionSwitchArmUndefined = true.
Proof.
  assert (Hc : case_field s cases (-1) = -1) by (unfold case_field; rewrite Hcase; reflexivity).
  split; [|split].
  - intros o1 Hv He. simpl. rewrite Hv, He, Hs, Hc. reflexivity.
  - intros d src rest Hv Hd. simpl. rewrite Hv, Hd, Hs, Hc. reflexivity.
  - reflexivity.
Qed.

Lemma union_arm_undefined_witness :
  switch_value switchKindInt (VInt 7) = Some 7 /\ lookup_case 7 [(0, 0%Z)] = None /\
  Decode (fun x => x) (unionCodec (0%nat, intCodec W32) [Some (1%nat, intCodec W32)] [(0, 0%Z)] (-1)
            switchKindInt) (VStruct [VInt 0; VInt 0]) [0; 0; 0; 7; 0; 0; 0; 1] =
    (VStruct [VInt 7; VInt 0], Some (FieldError ErrUnionSwitchArmUndefined), [0; 0; 0; 1]).
Proof.
  split; [reflexivity|]. split; [reflexivity|].
  destruct (union_arm_undefined (fun x => x) 0%nat (intCodec W32) [Some (1%nat, intCodec W32)]
              [(0, 0%Z)] switchKindInt [VInt 0; VInt 0] (VInt 7) 7 eq_refl eq_refl) as [_ [H _]].
  apply (H (VInt 0) [0; 0; 0; 7; 0; 0; 0; 1] [0; 0; 0; 1]); vm_compute; reflexivity.
Defined.

Lemma ReadFull_short (n : nat) (src : list Z) :
  (length src < n)%nat -> exists e, ReadFull n src = (src, [], Some e).
Proof.
  intros H. unfold ReadFull. destruct (decide (n <= length src)%nat); [lia|].
  eexists. reflexivity.
Qed.

(** C5 (the read of the body): when the source ends inside the body and
    padding of a byte slice or string whose length word [n] is accepted
    ([0 < n <= M]), [DecodeOpaque] drops the error of [io.ReadFull]: the
    decode succeeds, with the missing bytes left zero. *)
Theorem decode_opaque_short_body (f32_conv : Z -> Z) (M o : Z) (d : value) (word body : list Z)
    (Hw : length word = 4%nat) (Hn : 0 < be_value word <= M)
    (Hshort : (length body < Z.to_nat (Z.land (be_value word + 3) (Z.lnot 3)))%nat) :
  let buf := take (Z.to_nat (be_value word))
               (fill (Z.to_nat (Z.land (be_value word + 3) (Z.lnot 3))) body) in
  Decode f32_conv (opaqueSliceCodec M o) d (word ++ body) = (VSlice false (of_bytes buf), None, []) /\
  Decode f32_conv (varStringCodec M o) d (word ++ body) = (VString buf, None, []).
Proof.
  intros buf.
  assert (Hl0 : (be_value word =? 0) = false) by (apply Z.eqb_neq; lia).
  assert (Hlm : (be_value word >? M) = false) by (rewrite Z.gtb_ltb; apply Z.ltb_ge; lia).
  destruct (ReadFull_short _ _ Hshort) as [e He].
  split; simpl; [|unfold DecodeString]; unfold DecodeOpaque;
    rewrite DecodeUnsignedInt_app by exact Hw; rewrite Hl0, Hlm, He; reflexivity.
Qed.

Lemma decode_opaque_short_body_witness :
  length ([0; 0; 0; 3] : list Z) = 4%nat /\ 0 < be_value [0; 0; 0; 3] <= 8 /\
  Nat.lt (length [65%Z]) (Z.to_nat (Z.land (be_value [0; 0; 0; 3] + 3) (Z.lnot 3))) /\
  Decode (fun x => x) (opaqueSliceCodec 8 8) (VSlice true []) ([0; 0; 0; 3] ++ [65]) =
    (VSlice false [VInt 65; VInt 0; VInt 0], None, []).
Proof.
  assert (H1 : 0 < be_value [0; 0; 0; 3] <= 8) by (vm_compute; split; [reflexivity | discriminate]).
  assert (H2 : Nat.lt (length [65%Z]) (Z.to_nat (Z.land (be_value [0; 0; 0; 3] + 3) (Z.lnot 3))))
    by (vm_compute; lia).
  split; [reflexivity|]. split; [exact H1|]. split; [exact H2|].
  destruct (decode_opaque_short_body (fun x => x) 8 8 (VSlice true []) [0; 0; 0; 3] [65]
              eq_refl H1 H2) as [H _].
  rewrite H. vm_compute. reflexivity.
Defined.

(** C6 (switch types): [ParseTag] accepts [union:switch] on every integer
    type [validForUnionSwitch] lists, but [makeStructCodec] then panics for
    the ones other than [int32], [uint32] and [bool] ([int], [int8],
    [int16], [int64], [uint], [uint8], [uint16]) instead of reporting an
    error: building the codec of a struct whose first field is such a
    switch ends in a panic. *)
Theorem union_switch_type_panics (t : gotype) (name : string)
    (rest : list (string * gotype * string))
    (Hvalid : validForUnionSwitch t = true)
    (H32 : t <> TInt32) (Hu32 : t <> TUint32) (Hb : t <> TBool) :
  ParseTag t "union:switch" MaybeInUnion = (inr [UnionSwitch], InUnion) /\
  buildCodec (TStruct ((name, t, "union:switch") :: rest)) [] =
    Panic "Switch field of union not valid (must be int32, uint32 or bool)".
Proof.
  destruct t; try discriminate Hvalid; try contradiction; split; reflexivity.
Qed.

Lemma union_switch_type_panics_witness :
  validForUnionSwitch TInt64 = true /\ TInt64 <> TInt32 /\ TInt64 <> TUint32 /\ TInt64 <> TBool /\
  buildCodec (TStruct [("S", TInt64, "union:switch"); ("A", TInt32, "union:0")]) [] =
    Panic "Switch field of union not valid (must be int32, uint32 or bool)".
Proof.
  split; [reflexivity|]. split; [discriminate|]. split; [discriminate|]. split; [discriminate|].
  destruct (union_switch_type_panics TInt64 "S" [("A", TInt32, "union:0")] eq_refl
              ltac:(discriminate) ltac:(discriminate) ltac:(discriminate)) as [_ H].
  exact H.
Defined.

Lemma ParseTag_skip (t : gotype) (stag : string) (isUnion : IsInUnion) :
  TrimSpace stag = "-" -> ParseTag t stag isUnion = (inr [Skip], isUnion).
Proof. intros H. unfold ParseTag. rewrite H. reflexivity. Qed.

Lemma struct_first_skipped (n i : nat) (fs : list sfield) :
  Forall (fun f : sfield => TrimSpace (snd (fst f)) = "-") fs ->
  struct_first n i fs = Built (structCodec []).
Proof.
  intros H. revert i. induction H as [|[[[name ft] stag] get] r Hf Hr IH]; intros i.
  - reflexivity.
  - simpl in Hf. simpl. rewrite (ParseTag_skip ft stag MaybeInUnion Hf). apply IH.
Qed.

(** C9: a struct type with no fields, or whose fields are all tagged [-],
    gets the struct codec with no fields, which encodes any value of the
    type to no bytes and decodes it reading nothing, without error. *)
Theorem skipped_struct_codec (fs : list (string * gotype * string))
    (Hskip : Forall (fun f => TrimSpace (snd f) = "-") fs) :
  buildCodec (TStruct fs) [] = Built (structCodec []) /\
  forall (f32_conv : Z -> Z) (vs : list value) (src : list Z),
    Encode f32_conv (structCodec []) (VStruct vs) = ([], None) /\
    Decode f32_conv (structCodec []) (VStruct vs) src = (VStruct vs, None, src).
Proof.
  split; [|intros; split; reflexivity].
  simpl. unfold makeStructCodec. apply struct_first_skipped.
  induction Hskip as [|[[name ft] stag] r Hf Hr IH]; simpl.
  - apply List.Forall_nil.
  - apply List.Forall_cons; [exact Hf | exact IH].
Qed.

Lemma skipped_struct_codec_witness :
  Forall (fun f => TrimSpace (snd f) = "-") [("A", TInt32, " - "); ("B", TString, "-")] /\
  buildCodec (TStruct [("A", TInt32, " - "); ("B", TString, "-")]) [] = Built (structCodec []).
Proof.
  assert (H : Forall (fun f => TrimSpace (snd f) = "-") [("A", TInt32, " - "); ("B", TString, "-")]).
  { repeat constructor. }
  split; [exact H|].
  destruct (skipped_struct_codec _ H) as [Hb _]. exact Hb.
Defined.

(** ** Tags [len:N] *)

Lemma tag_char_clean (c : ascii) :
  tag_char c = true -> is_space c = false /\ Ascii.eqb c "/"%char = false.
Proof.
  destruct c as [[] [] [] [] [] [] [] []]; vm_compute; intros H;
    first [discriminate H | split; reflexivity].
Qed.

Lemma prefix_letter_tag_char (c : ascii) :
  (lower c =? 98) || (lower c =? 111) || (lower c =? 120) = true -> tag_char c = true.
Proof.
  destruct c as [[] [] [] [] [] [] [] []]; vm_compute; intros H;
    first [discriminate H | reflexivity].
Qed.

Lemma parse_digits_chars (base : Z) (l : list ascii) (n : Z) (us : bool) (p : Z * bool) :
  parse_digits base l n us = Some p -> Forall (fun c => tag_char c = true) l.
Proof.
  revert n us. induction l as [|c r IH]; intros n us H; [constructor|].
  simpl in H. destruct (code c =? 95) eqn:E95.
  - constructor; [unfold tag_char; rewrite E95; reflexivity | eapply IH; exact H].
  - destruct (digit_of c) as [d|] eqn:Ed; [|discriminate H].
    destruct (d >=? base); [discriminate H|].
    destruct (n * base + d >? MaxUint32); [discriminate H|].
    constructor; [unfold tag_char; rewrite Ed, orb_true_r; reflexivity | eapply IH; exact H].
Qed.

Lemma parseU32_chars (s : string) (n : Z) :
  parseU32 s = Some n -> Forall (fun c => tag_char c = true) (list_ascii_of_string s).
Proof.
  unfold parseU32, ParseUint32. destruct (list_ascii_of_string s) as [|c0 r0]; [discriminate|].
  destruct (code c0 =? 48) eqn:E48.
  - assert (T0 : tag_char c0 = true).
    { unfold tag_char, digit_of. apply Z.eqb_eq in E48. rewrite E48. apply orb_true_r. }
    destruct r0 as [|c1 [|c2 rr]].
    + intros _. constructor; [exact T0 | constructor].
    + destruct (parse_digits 8 [c1] 0 false) as [p|] eqn:Ep; [|discriminate].
      intros _. constructor; [exact T0 | eapply parse_digits_chars; exact Ep].
    + destruct (lower c1 =? 98) eqn:E1; [|destruct (lower c1 =? 111) eqn:E2;
        [|destruct (lower c1 =? 120) eqn:E3]];
      destruct (parse_digits _ _ 0 false) as [p|] eqn:Ep; try discriminate; intros _;
      constructor; try exact T0;
      try (eapply parse_digits_chars; exact Ep);
      (constructor; [apply prefix_letter_tag_char; rewrite ?E1, ?E2, ?E3; reflexivity
                    | eapply parse_digits_chars; exact Ep]).
  - destruct (parse_digits 10 (c0 :: r0) 0 false) as [p|] eqn:Ep; [|discriminate].
    intros _. eapply parse_digits_chars; exact Ep.
Qed.

Lemma trim_left_clean (l : list ascii) :
  Forall (fun c => is_space c = false) l -> trim_left l = l.
Proof. intros [|c r Hc _]; [reflexivity|]. simpl. rewrite Hc. reflexivity. Qed.

Lemma TrimSpace_clean (s : string) :
  Forall (fun c => is_space c = false) (list_ascii_of_string s) -> TrimSpace s = s.
Proof.
  intros H. unfold TrimSpace. rewrite (trim_left_clean _ H).
  rewrite trim_left_clean by (apply Forall_rev; exact H).
  rewrite rev_involutive. apply string_of_list_ascii_of_string.
Qed.

Lemma split_on_clean (sep : ascii) (l : list ascii) :
  Forall (fun c => Ascii.eqb c sep = false) l -> split_on sep l = [l].
Proof.
  induction 1 as [|c r Hc Hr IH]; [reflexivity|]. simpl. rewrite IH, Hc. reflexivity.
Qed.

Lemma Split_clean (s : string) (sep : ascii) :
  Forall (fun c => Ascii.eqb c sep = false) (list_ascii_of_string s) -> Split s sep = [s].
Proof.
  intros H. unfold Split. rewrite split_on_clean by exact H. simpl.
  rewrite string_of_list_ascii_of_string. reflexivity.
Qed.

Lemma len_tag_chars (s : string) (n : Z) :
  parseU32 s = Some n ->
  Forall (fun c => is_space c = false) (list_ascii_of_string ("len:" ++ s)) /\
  Forall (fun c => Ascii.eqb c "/"%char = false) (list_ascii_of_string ("len:" ++ s)).
Proof.
  intros H. pose proof (parseU32_chars s n H) as Hc.
  simpl. split; repeat constructor;
    (eapply Forall_impl; [exact Hc | intros c Ht; apply (tag_char_clean c Ht)]).
Qed.

Lemma str_from_len (s : string) : str_from 4 ("len:" ++ s) = s.
Proof. unfold str_from. simpl. apply string_of_list_ascii_of_string. Qed.

Lemma ParseTag_len (t : gotype) (s : string) (n : Z) :
  parseU32 s = Some n ->
  ParseTag t ("len:" ++ s) MaybeInUnion =
    (match t with
     | TArray _ _ => inl "Cannot apply `len:` tag to an array; just specify length directly"
     | TString | TSlice _ => inr [Len n]
     | _ => inl "Cannot apply `len:` tag; must be slice, string or map"
     end, NotInUnion).
Proof.
  intros H. destruct (len_tag_chars s n H) as [Hsp Hsl].
  unfold ParseTag. rewrite (TrimSpace_clean _ Hsp), (Split_clean _ _ Hsl).
  simpl. rewrite (TrimSpace_clean _ Hsp). unfold parse_part.
  simpl. rewrite str_from_len, H. destruct t; reflexivity.
Qed.

Lemma digit_of_nonneg (c : ascii) (d : Z) : digit_of c = Some d -> 0 <= d.
Proof.
  unfold digit_of. destruct ((48 <=? code c) && (code c <=? 57)) eqn:E1.
  - intros [= <-]. apply andb_prop in E1 as [E1 _]. apply Z.leb_le in E1. lia.
  - destruct ((97 <=? lower c) && (lower c <=? 122)) eqn:E2; [|discriminate].
    intros [= <-]. apply andb_prop in E2 as [E2 _]. apply Z.leb_le in E2. lia.
Qed.

Lemma parse_digits_range (base : Z) (l : list ascii) (n : Z) (us : bool) (n' : Z) (us' : bool) :
  0 <= base -> 0 <= n <= MaxUint32 -> parse_digits base l n us = Some (n', us') ->
  0 <= n' <= MaxUint32.
Proof.
  intros Hb. revert n us. induction l as [|c r IH]; intros n us Hn H; simpl in H.
  - injection H as <- _. exact Hn.
  - destruct (code c =? 95); [eapply IH; eauto|].
    destruct (digit_of c) as [d|] eqn:Ed; [|discriminate H].
    pose proof (digit_of_nonneg c d Ed).
    destruct (d >=? base); [discriminate H|].
    destruct (Z.gtb_spec (n * base + d) MaxUint32); [discriminate H|].
    eapply IH; [|exact H]. nia.
Qed.

Lemma parseU32_range (s : string) (n : Z) : parseU32 s = Some n -> 0 <= n <= MaxUint32.
Proof.
  unfold parseU32, ParseUint32. destruct (list_ascii_of_string s) as [|c0 r0]; [discriminate|].
  set (bs := if code c0 =? 48 then _ else _).
  assert (Hb : 0 <= fst bs) by (subst bs; repeat case_match; simpl; apply Z.leb_le; reflexivity).
  destruct bs as [base s1]. simpl in Hb.
  destruct (parse_digits base s1 0 false) as [[n' us]|] eqn:Ep; [|discriminate].
  assert (R : 0 <= n' <= MaxUint32)
    by (apply (parse_digits_range base s1 0 false n' us Hb); [unfold MaxUint32; lia | exact Ep]).
  destruct (us && _); [discriminate | intros [= <-]; exact R].
Qed.

Lemma buildCodec_one_field (name : string) (t : gotype) (stag : string) :
  buildCodec (TStruct [(name, t, stag)]) [] = struct_first 1 0 [(name, t, stag, buildCodec t)].
Proof. reflexivity. Qed.

(** C7 (code bug on slices): for a field tagged [len:N] ([N] accepted by
    [parseU32]): on a fixed-size array the tag is rejected (the struct gets
    the error codec of the field); on a string it gives the fixed-length
    string codec of [N], which writes the [N] bytes and their padding with
    no length prefix and fails with [ErrLengthIncorrect] for any other
    length.  On a slice, which the documentation of [XDRTag] and of [Len]
    (part_014) says [len:N] makes a fixed-length array, [ParseTag] accepts
    the tag, but [makeSliceCodec] has no case for [Len] and gives the codec
    of [InvalidTagForTypeError], which refuses every value. *)
Theorem len_tag_codecs (s : string) (n : Z) (name : string) (Hn : parseU32 s = Some n) :
  (forall m e,
     ParseTag (TArray m e) ("len:" ++ s) MaybeInUnion =
       (inl "Cannot apply `len:` tag to an array; just specify length directly", NotInUnion) /\
     buildCodec (TStruct [(name, TArray m e, ("len:" ++ s)%string)]) [] =
       Built (field_error name "Cannot apply `len:` tag to an array; just specify length directly")) /\
  (ParseTag TString ("len:" ++ s) MaybeInUnion = (inr [Len n], NotInUnion) /\
   buildCodec (TStruct [(name, TString, ("len:" ++ s)%string)]) [] =
     Built (structCodec [(0%nat, fixedStringCodec n)]) /\
   forall (f32_conv : Z -> Z) (str : list Z),
     (Z.of_nat (length str) = n ->
        exists p, Encode f32_conv (fixedStringCodec n) (VString str) = (str ++ repeat 0 p, None) /\
                  (p < 4)%nat) /\
     (Z.of_nat (length str) <> n ->
        Encode f32_conv (fixedStringCodec n) (VString str) = ([], Some ErrLengthIncorrect))) /\
  (forall e,
     ParseTag (TSlice e) ("len:" ++ s) MaybeInUnion = (inr [Len n], NotInUnion) /\
     buildCodec (TStruct [(name, TSlice e, ("len:" ++ s)%string)]) [] =
       Built (structCodec [(0%nat, errorCodec InvalidTagForTypeError)]) /\
     forall (f32_conv : Z -> Z) (v : value),
       Encode f32_conv (errorCodec InvalidTagForTypeError) v = ([], Some InvalidTagForTypeError)).
Proof.
  pose proof (parseU32_range s n Hn) as Hr.
  split; [|split].
  - intros m e. rewrite buildCodec_one_field. cbn [struct_first].
    rewrite (ParseTag_len _ _ _ Hn). split; reflexivity.
  - rewrite buildCodec_one_field. cbn [struct_first].
    rewrite (ParseTag_len _ _ _ Hn). split; [reflexivity|]. split.
    + simpl. unfold makeStringCodec. simpl.
      destruct (Z.gtb_spec n maxInt) as [G|G]; [unfold maxInt, MaxUint32 in *; lia|].
      unfold cap_maxInt. destruct (Z.gtb_spec n maxInt); [lia|]. reflexivity.
    + intros f str. split.
      * intros Hl. destruct (padded_body str) as [p [Hp Hlt]]. exists p. simpl.
        rewrite Hl, Z.eqb_refl, EncodeFixedString_eq, Hp. split; [reflexivity | apply Hlt].
      * intros Hl. simpl. apply Z.eqb_neq in Hl. rewrite Hl. reflexivity.
  - intros e. rewrite buildCodec_one_field. cbn [struct_first].
    rewrite (ParseTag_len _ _ _ Hn). split; [reflexivity|]. split; reflexivity.
Qed.

(** C7: a [[]int32] field tagged [len:4] does not get a fixed-length codec:
    its codec refuses every value, of length 4 too, with
    [InvalidTagForTypeError]. *)
Lemma len_tag_slice_counterexample :
  buildCodec (TStruct [("A", TSlice TInt32, "len:4")]) [] =
    Built (structCodec [(0%nat, errorCodec InvalidTagForTypeError)]) /\
  Encode (fun x => x) (structCodec [(0%nat, errorCodec InvalidTagForTypeError)])
    (VStruct [VSlice false [VInt 1; VInt 2; VInt 3; VInt 4]]) =
    ([], Some (FieldError InvalidTagForTypeError)).
Proof. split; vm_compute; reflexivity. Qed.

Lemma len_tag_codecs_witness :
  parseU32 "4" = Some 4 /\
  ParseTag (TSlice TUint8) "len:4" MaybeInUnion = (inr [Len 4], NotInUnion) /\
  buildCodec (TStruct [("Foo", TSlice TUint8, "len:4")]) [] =
    Built (structCodec [(0%nat, errorCodec InvalidTagForTypeError)]).
Proof.
  split; [reflexivity|].
  destruct (len_tag_codecs "4" 4 "Foo" eq_refl) as [_ [_ H]].
  destruct (H TUint8) as [H1 [H2 _]].
  split; [exact H1 | exact H2].
Defined.

(** * Further properties *)

(** ** The wire layer *)

(** X1: the integer encoders and decoders of the wire layer round trip: a
    word written by EncodeInt, EncodeUnsignedInt, EncodeHyper or
    EncodeUnsignedHyper is read back by the matching decoder as the value
    reduced to 32 or 64 bits (two's complement for the signed ones), and the
    bytes after it are left unread. *)
Theorem wire_int_roundtrip (i u : Z) (rest : list Z) :
  DecodeInt (fst (EncodeInt i) ++ rest) = (to_signed 32 i, None, rest) /\
  DecodeUnsignedInt (fst (EncodeUnsignedInt u) ++ rest) = (u mod 2 ^ 32, None, rest) /\
  DecodeHyper (fst (EncodeHyper i) ++ rest) = (to_signed 64 i, None, rest) /\
  DecodeUnsignedHyper (fst (EncodeUnsignedHyper u) ++ rest) = (u mod 2 ^ 64, None, rest).
Proof.
  rewrite EncodeInt_eq, EncodeUnsignedInt_eq. unfold EncodeUnsignedHyper. rewrite !EncodeHyper_eq.
  cbn [fst]. unfold DecodeInt, DecodeHyper.
  rewrite !word_decode, !hyper_decode, to_signed_of_mod, to_signed_of_mod, !to_signed_mod by lia.
  repeat split.
Qed.

(** X2: EncodeBool, EncodeFloat and EncodeDouble round trip through
    DecodeBool, DecodeFloat and DecodeDouble: the boolean comes back, and
    the float bits come back reduced to 32 or 64 bits. *)
Theorem wire_bool_float_roundtrip (b : bool) (f g : Z) (rest : list Z) :
  DecodeBool (fst (EncodeBool b) ++ rest) = (b, None, rest) /\
  DecodeFloat (fst (EncodeFloat f) ++ rest) = (f mod 2 ^ 32, None, rest) /\
  DecodeDouble (fst (EncodeDouble g) ++ rest) = (g mod 2 ^ 64, None, rest).
Proof.
  unfold EncodeBool, EncodeFloat, EncodeDouble, EncodeUnsignedHyper, DecodeFloat, DecodeDouble.
  rewrite EncodeInt_eq, EncodeUnsignedInt_eq, EncodeHyper_eq. cbn [fst].
  rewrite !word_decode, hyper_decode, !to_signed_mod by lia.
  split; [|split; reflexivity]. unfold DecodeBool. rewrite word_decode. destruct b; reflexivity.
Qed.



(** X4: EncodeOpaque and EncodeString round trip through DecodeOpaque and
    DecodeString when the length is within the maximum: the bytes come back
    (an empty opaque as a nil slice) and the rest of the stream is left
    unread. *)
Theorem wire_opaque_roundtrip (maxLen : Z) (s rest : list Z)
    (Hm : Z.of_nat (length s) <= maxLen) (Hu : Z.of_nat (length s) <= MaxUint32) :
  DecodeOpaque maxLen (fst (EncodeOpaque s) ++ rest) =
    (match s with [] => None | _ => Some s end, None, rest) /\
  DecodeString maxLen (fst (EncodeString s) ++ rest) = (s, None, rest).
Proof.
  change (EncodeString s) with (EncodeOpaque s). unfold DecodeString.
  rewrite DecodeOpaque_roundtrip by assumption. split; [reflexivity|]. destruct s; reflexivity.
Qed.

Lemma wire_opaque_roundtrip_witness :
  Z.of_nat (length [1; 2; 3]) <= 5 /\ Z.of_nat (length [1; 2; 3]) <= MaxUint32 /\
  DecodeOpaque 5 (fst (EncodeOpaque [1; 2; 3]) ++ [9]) = (Some [1; 2; 3], None, [9]) /\
  DecodeString 5 (fst (EncodeString [1; 2; 3]) ++ [9]) = ([1; 2; 3], None, [9]).
Proof.
  split; [simpl; lia|]. split; [vm_compute; discriminate|].
  exact (wire_opaque_roundtrip 5 [1; 2; 3] [9] ltac:(simpl; lia) ltac:(vm_compute; discriminate)).
Defined.

(** X5: EncodeFixedOpaque and EncodeFixedString round trip through
    DecodeFixedOpaque (into a buffer of the same length) and
    DecodeFixedString, consuming the body and its padding. *)
Theorem wire_fixed_roundtrip (buf s rest : list Z) (Hl : length buf = length s) :
  DecodeFixedOpaque buf (fst (EncodeFixedOpaque s) ++ rest) = (s, None, rest) /\
  DecodeFixedString (Z.of_nat (length s)) (fst (EncodeFixedString s) ++ rest) = (s, None, rest).
Proof.
  split; [exact (DecodeFixedOpaque_roundtrip buf s rest Hl)|].
  unfold DecodeFixedString. apply DecodeFixedOpaque_roundtrip. rewrite repeat_length. lia.
Qed.

Lemma wire_fixed_roundtrip_witness :
  length [0; 0] = length [5; 6] /\
  DecodeFixedOpaque [0; 0] (fst (EncodeFixedOpaque [5; 6]) ++ [1]) = ([5; 6], None, [1]) /\
  DecodeFixedString (Z.of_nat (length [5; 6])) (fst (EncodeFixedString [5; 6]) ++ [1]) = ([5; 6], None, [1]).
Proof. split; [reflexivity|]. exact (wire_fixed_roundtrip [0; 0] [5; 6] [1] eq_refl). Defined.

(** X6: the padding bytes after an opaque body are skipped without being
    checked: any bytes of the padding length decode as if they were zeros. *)
Theorem wire_padding_unchecked (buf s p rest : list Z) (Hl : length buf = length s)
    (Hp : Z.of_nat (length p) = Z.land (4 - Z.land (Z.of_nat (length s)) 3) 3) :
  DecodeFixedOpaque buf (s ++ p ++ rest) = (s, None, rest) /\
  (0 < Z.of_nat (length s) <= MaxUint32 ->
   DecodeOpaque MaxUint32 (word_bytes (Z.of_nat (length s)) ++ s ++ p ++ rest) = (Some s, None, rest)).
Proof.
  pose proof (padding_bound (Z.of_nat (length s))) as B.
  split.
  - unfold DecodeFixedOpaque. rewrite Hl, ReadFull_app by reflexivity.
    rewrite drop_ge by lia. rewrite app_nil_r.
    rewrite lPad_eq, <- Hp.
    replace (Z.of_nat (length s) + Z.of_nat (length p) - Z.of_nat (length s)) with (Z.of_nat (length p)) by lia.
    destruct (Z.eqb_spec (Z.of_nat (length p)) 0) as [E|E].
    + assert (p = []) as -> by (apply length_zero_iff_nil; lia). reflexivity.
    + rewrite ReadFull_app by lia. reflexivity.
  - intros Hs. unfold DecodeOpaque. rewrite word_decode, Z.mod_small by (unfold MaxUint32 in Hs; lia).
    destruct (Z.eqb_spec (Z.of_nat (length s)) 0) as [E|E]; [lia|].
    assert (Hg : (Z.of_nat (length s) >? MaxUint32) = false) by (rewrite Z.gtb_ltb; apply Z.ltb_ge; lia).
    rewrite Hg, lPad_eq, <- Hp, app_assoc.
    rewrite ReadFull_app by (rewrite length_app; lia).
    rewrite fill_full by (rewrite length_app; lia).
    rewrite Nat2Z.id, take_app_length. reflexivity.
Qed.

Lemma wire_padding_unchecked_witness :
  length [0] = length [5] /\
  Z.of_nat (length [7; 7; 7]) = Z.land (4 - Z.land (Z.of_nat (length [5])) 3) 3 /\
  DecodeFixedOpaque [0] ([5] ++ [7; 7; 7] ++ [1]) = ([5], None, [1]) /\
  DecodeOpaque MaxUint32 (word_bytes (Z.of_nat (length [5])) ++ [5] ++ [7; 7; 7] ++ [1]) = (Some [5], None, [1]).
Proof.
  split; [reflexivity|]. split; [reflexivity|].
  destruct (wire_padding_unchecked [0] [5] [7; 7; 7] [1] eq_refl eq_refl) as [H1 H2].
  split; [exact H1|]. apply H2. vm_compute. split; [reflexivity|discriminate].
Defined.

(** X7: DecodeFixedOpaque on a stream shorter than the buffer: the bytes
    read overwrite the front of the buffer, the rest of the buffer keeps its
    contents, and the error is EOF or ErrUnexpectedEOF. *)
Theorem wire_fixed_short (buf src : list Z) (H : (length src < length buf)%nat) :
  DecodeFixedOpaque buf src =
    (src ++ drop (length src) buf, Some (match src with [] => EOF | _ => ErrUnexpectedEOF end), []).
Proof.
  unfold DecodeFixedOpaque, ReadFull. destruct (decide (length buf <= length src)%nat); [lia|].
  reflexivity.
Qed.

Lemma wire_fixed_short_witness :
  (length [5] < length [0; 0; 0])%nat /\
  DecodeFixedOpaque [0; 0; 0] [5] = ([5; 0; 0], Some ErrUnexpectedEOF, []).
Proof. split; [simpl; lia|]. exact (wire_fixed_short [0; 0; 0] [5] ltac:(simpl; lia)). Defined.

(** ** Codecs *)

(** X8: a map whose stream carries the same key twice decodes without error;
    when the decoded key is equal to itself under [==], the map holds it
    once, with the value decoded last; when it is not (a NaN, a non-nil
    pointer), the map holds two entries. *)
Theorem map_duplicate_key_last_wins (f32_conv : Z -> Z) (kc vc : codec) (kz vz d : value) (M o : Z)
    (bk b1 b2 rest : list Z) (k x1 x2 : value)
    (HM : 2 <= M < 2 ^ 32)
    (Hk : forall r, Decode f32_conv kc kz (bk ++ r) = (k, None, r))
    (H1 : forall r, Decode f32_conv vc vz (b1 ++ r) = (x1, None, r))
    (H2 : forall r, Decode f32_conv vc vz (b2 ++ r) = (x2, None, r)) :
  Decode f32_conv (mapCodec kc vc kz vz M o) d (word_bytes 2 ++ bk ++ b1 ++ bk ++ b2 ++ rest) =
    (VMap (if go_eqb k k then [(k, x2)] else [(k, x1); (k, x2)]), None, rest).
Proof.
  cbn [Decode]. rewrite word_decode. change (2 mod 2 ^ 32) with 2.
  assert (Hg : (2 >? to_unsigned 32 M) = false).
  { unfold to_unsigned. rewrite Z.mod_small by lia. rewrite Z.gtb_ltb. apply Z.ltb_ge. lia. }
  rewrite Hg. change (Z.to_nat 2) with 2%nat. cbn [decode_pairs].
  rewrite Hk, H1. cbn [SetMapIndex existsb app]. rewrite Hk, H2.
  unfold SetMapIndex. cbn [existsb map]. destruct (go_eqb k k); reflexivity.
Qed.

Lemma map_duplicate_key_last_wins_witness :
  (2 <= 10 < 2 ^ 32) /\
  (forall r, Decode (fun x => x) floatCodec (VFloat32 0) (word_bytes 2143289344 ++ r) =
               (VFloat32 2143289344, None, r)) /\
  Decode (fun x => x) (mapCodec floatCodec boolCodec (VFloat32 0) (VBool false) 10 10) (VMap [])
    (word_bytes 2 ++ word_bytes 2143289344 ++ word_bytes 0 ++ word_bytes 2143289344 ++ word_bytes 1 ++ []) =
    (VMap [(VFloat32 2143289344, VBool false); (VFloat32 2143289344, VBool true)], None, []).
Proof.
  assert (Hk : forall r, Decode (fun x => x) floatCodec (VFloat32 0) (word_bytes 2143289344 ++ r) =
                           (VFloat32 2143289344, None, r)).
  { intros r. cbn [Decode]. unfold DecodeFloat. rewrite word_decode. reflexivity. }
  split; [lia|]. split; [exact Hk|].
  rewrite (map_duplicate_key_last_wins (fun x => x) floatCodec boolCodec (VFloat32 0) (VBool false) (VMap [])
             10 10 (word_bytes 2143289344) (word_bytes 0) (word_bytes 1) [] (VFloat32 2143289344)
             (VBool false) (VBool true)); try lia; try exact Hk;
    try (intros r; cbn [Decode]; unfold DecodeBool; rewrite word_decode; reflexivity).
  vm_compute. reflexivity.
Defined.

(** X9: a map count above the maximum: decoding reads only the count, leaves
    the destination as it was and fails with LengthError; encoding a larger
    map writes nothing and fails with LengthError. *)
Theorem map_length_limit (f32_conv : Z -> Z) (kc vc : codec) (kz vz d : value) (M o l : Z)
    (kvs : list (value * value)) (rest : list Z) (HM : 0 <= M) (Hl : M < l < 2 ^ 32) :
  Decode f32_conv (mapCodec kc vc kz vz M o) d (word_bytes l ++ rest) =
    (d, Some (LengthError l o), rest) /\
  (M < Z.of_nat (length kvs) ->
   Encode f32_conv (mapCodec kc vc kz vz M o) (VMap kvs) = ([], Some (LengthError (Z.of_nat (length kvs)) o))).
Proof.
  split.
  - cbn [Decode]. rewrite word_decode, Z.mod_small by lia.
    assert (Hg : (l >? to_unsigned 32 M) = true).
    { unfold to_unsigned. rewrite Z.mod_small by lia. rewrite Z.gtb_ltb. apply Z.ltb_lt. lia. }
    rewrite Hg. reflexivity.
  - intros Hk. cbn [Encode].
    assert (Hg : (Z.of_nat (length kvs) >? M) = true) by (rewrite Z.gtb_ltb; apply Z.ltb_lt; lia).
    rewrite Hg. reflexivity.
Qed.

Lemma map_length_limit_witness :
  0 <= 1 /\ 1 < 3 < 2 ^ 32 /\
  Decode (fun x => x) (mapCodec boolCodec boolCodec (VBool false) (VBool false) 1 1) (VMap [])
    (word_bytes 3 ++ []) = (VMap [], Some (LengthError 3 1), []) /\
  Encode (fun x => x) (mapCodec boolCodec boolCodec (VBool false) (VBool false) 1 1)
    (VMap [(VBool false, VBool true); (VBool true, VBool true)]) = ([], Some (LengthError 2 1)).
Proof.
  split; [lia|]. split; [lia|].
  destruct (map_length_limit (fun x => x) boolCodec boolCodec (VBool false) (VBool false) (VMap []) 1 1 3
              [(VBool false, VBool true); (VBool true, VBool true)] [] ltac:(lia) ltac:(lia)) as [H1 H2].
  split; [exact H1|]. apply H2. simpl. lia.
Defined.

(** X10: a zero count decodes to an empty collection whatever the
    destination held: the nil slice for slices and byte slices, the empty
    string, and an empty map. *)
Theorem zero_count_empty (f32_conv : Z -> Z) (elem kc vc : codec) (z kz vz d : value) (M o : Z)
    (rest : list Z) :
  Decode f32_conv (sliceCodec elem z M o) d (word_bytes 0 ++ rest) = (VSlice true [], None, rest) /\
  Decode f32_conv (opaqueSliceCodec M o) d (word_bytes 0 ++ rest) = (VSlice true [], None, rest) /\
  Decode f32_conv (varStringCodec M o) d (word_bytes 0 ++ rest) = (VString [], None, rest) /\
  Decode f32_conv (mapCodec kc vc kz vz M o) d (word_bytes 0 ++ rest) = (VMap [], None, rest).
Proof.
  cbn [Decode]. unfold DecodeString, DecodeOpaque. rewrite !word_decode. change (0 mod 2 ^ 32) with 0.
  assert (Hg : (0 >? to_unsigned 32 M) = false).
  { unfold to_unsigned. rewrite Z.gtb_ltb. apply Z.ltb_ge. apply Z.mod_pos_bound. lia. }
  rewrite Hg. repeat split.
Qed.

(** X11: nil pointers: a plain pointer codec refuses to encode nil
    (ErrNilPointer, nothing written); an optional pointer encodes nil as the
    word 0 and decodes the word 0 as nil; the word 1 decodes the pointee into
    a fresh allocation, whatever the destination held; any other word is
    refused with ErrInvalidValue and the destination keeps its pointer. *)
Theorem opt_ptr_nil (f32_conv : Z -> Z) (elem : codec) (z d : value) (w : Z) (src rest : list Z)
    (Hw : w mod 2 ^ 32 <> 0 /\ w mod 2 ^ 32 <> 1) :
  Encode f32_conv (ptrCodec elem z) (VPtr None) = ([], Some ErrNilPointer) /\
  Encode f32_conv (optCodec (ptrCodec elem z)) (VPtr None) = ([0; 0; 0; 0], None) /\
  Decode f32_conv (optCodec (ptrCodec elem z)) d (word_bytes 0 ++ rest) = (VPtr None, None, rest) /\
  Decode f32_conv (optCodec (ptrCodec elem z)) d (word_bytes 1 ++ src) =
    (let '(x, err, r) := Decode f32_conv elem z src in (VPtr (Some x), err, r)) /\
  Decode f32_conv (optCodec (ptrCodec elem z)) d (word_bytes w ++ rest) = (d, Some ErrInvalidValue, rest).
Proof.
  split; [reflexivity|]. split; [reflexivity|].
  cbn [Decode]. unfold DecodeBool. rewrite !word_decode. split; [reflexivity|]. split; [reflexivity|].
  destruct Hw as [H0 H1]. apply Z.eqb_neq in H0, H1. rewrite H0, H1. reflexivity.
Qed.

Lemma opt_ptr_nil_witness :
  (2 mod 2 ^ 32 <> 0 /\ 2 mod 2 ^ 32 <> 1) /\
  Decode (fun x => x) (optCodec (ptrCodec boolCodec (VBool false))) (VPtr (Some (VBool true)))
    (word_bytes 2 ++ []) = (VPtr (Some (VBool true)), Some ErrInvalidValue, []).
Proof.
  split; [vm_compute; split; discriminate|].
  apply (opt_ptr_nil (fun x => x) boolCodec (VBool false) (VPtr (Some (VBool true))) 2 [] []).
  vm_compute. split; discriminate.
Defined.

(** X12: a type of kind int, uint, uintptr, interface, chan or func that
    does not implement Marshaler gets an error codec: encoding and decoding
    fail with InvalidTypeError without writing or reading anything. *)
Theorem unsupported_kinds (f32_conv : Z -> Z) (t : gotype) (v d : value) (src : list Z)
    (Ht : In t [TInt; TUint; TUintptr; TInterface; TChan; TFunc]) :
  buildCodec t [] = Built (errorCodec InvalidTypeError) /\
  Encode f32_conv (errorCodec InvalidTypeError) v = ([], Some InvalidTypeError) /\
  Decode f32_conv (errorCodec InvalidTypeError) d src = (d, Some InvalidTypeError, src).
Proof.
  split; [|split; reflexivity].
  simpl in Ht. decompose sum Ht; subst; reflexivity || contradiction.
Qed.

Lemma unsupported_kinds_witness :
  In TChan [TInt; TUint; TUintptr; TInterface; TChan; TFunc] /\
  buildCodec TChan [] = Built (errorCodec InvalidTypeError).
Proof.
  split; [simpl; tauto|].
  apply (unsupported_kinds (fun x => x) TChan (VInt 0) (VInt 0) []). simpl. tauto.
Defined.

(** X13: a type other than pointer, string, array, slice or map with a
    non-empty tag that is not opt gets a codec failing with
    InvalidTagForTypeError. *)
Theorem scalar_rejects_tags (t : gotype) (tag : XDRTag)
    (Ht : match t with TPtr _ | TString | TArray _ _ | TSlice _ | TMap _ _ => False | _ => True end)
    (Hne : tag <> []) (Hk : Kind tag <> Opt) :
  buildCodec t tag = Built (errorCodec InvalidTagForTypeError).
Proof.
  destruct tag as [|e tag]; [congruence|]. cbn [Kind] in Hk.
  destruct t; try contradiction; destruct e; try congruence; reflexivity.
Qed.

Lemma scalar_rejects_tags_witness :
  [MaxLen 4] <> [] /\ Kind [MaxLen 4] <> Opt /\
  buildCodec TInt32 [MaxLen 4] = Built (errorCodec InvalidTagForTypeError).
Proof.
  split; [discriminate|]. split; [discriminate|].
  exact (scalar_rejects_tags TInt32 [MaxLen 4] I ltac:(discriminate) ltac:(discriminate)).
Defined.

Lemma word_bytes_byte (b : Z) : 0 <= b < 256 -> word_bytes b = [0; 0; 0; b].
Proof.
  intros H. unfold word_bytes. rewrite !Z.div_small by lia. rewrite (Z.mod_small b 256) by lia. reflexivity.
Qed.

Lemma byte_at_mod32 (x k : Z) : 0 <= k <= 24 -> ((x mod 2 ^ 32) / 2 ^ k) mod 256 = (x / 2 ^ k) mod 256.
Proof.
  intros Hk. change 256 with (2 ^ 8). apply Z.bits_inj'. intros n Hn.
  destruct (Z.lt_ge_cases n 8).
  - rewrite !Z.mod_pow2_bits_low, !Z.div_pow2_bits, Z.mod_pow2_bits_low by lia. reflexivity.
  - rewrite !Z.mod_pow2_bits_high by lia. reflexivity.
Qed.

Lemma word_bytes_mod32 (x : Z) : word_bytes (x mod 2 ^ 32) = word_bytes x.
Proof.
  pose proof (byte_at_mod32 x 0 ltac:(lia)) as H0. rewrite Z.pow_0_r, !Z.div_1_r in H0.
  unfold word_bytes. rewrite H0, !byte_at_mod32 by lia. reflexivity.
Qed.

Lemma word_bytes_signed (x : Z) : word_bytes (to_signed 32 x) = word_bytes x.
Proof. rewrite <- word_bytes_mod32, to_signed_mod by lia. apply word_bytes_mod32. Qed.

Lemma bytes_of_of_bytes (s : list Z) : bytes_of (of_bytes s) = Some s.
Proof. induction s as [|b s IH]; cbn; [reflexivity|]. fold (of_bytes s). rewrite IH. reflexivity. Qed.

Lemma encode_each_uint8 (f32_conv : Z -> Z) (s : list Z) :
  Forall (fun b => 0 <= b < 256) s ->
  encode_each (Encode f32_conv (uintCodec W8)) (of_bytes s) = (concat (map (fun b => [0; 0; 0; b]) s), None).
Proof.
  unfold of_bytes. induction 1 as [|b s Hb _ IH]; [reflexivity|].
  cbn [map encode_each concat]. rewrite IH. cbn [Encode].
  unfold to_unsigned. rewrite EncodeUnsignedInt_eq, word_bytes_signed, Z.mod_small, word_bytes_byte by lia.
  reflexivity.
Qed.

(** X14: a []byte tagged opaque is written as its length, the packed bytes
    and zero padding; an untagged []byte is a slice of uint8 written as its
    length and one four-byte word per byte. *)
Theorem opaque_vs_untagged_bytes (f32_conv : Z -> Z) (n : bool) (s : list Z)
    (Hb : Forall (fun b => 0 <= b < 256) s) (Hl : Z.of_nat (length s) <= MaxUint32) :
  ParseTag (TSlice TUint8) "opaque" NotInUnion = (inr [Noop; Opaque], NotInUnion) /\
  buildCodec (TSlice TUint8) [Noop; Opaque] = Built (opaqueSliceCodec MaxUint32 MaxUint32) /\
  Encode f32_conv (opaqueSliceCodec MaxUint32 MaxUint32) (VSlice n (of_bytes s)) =
    (word_bytes (Z.of_nat (length s)) ++ s ++ pad (Z.land (4 - Z.land (Z.of_nat (length s)) 3) 3), None) /\
  ParseTag (TSlice TUint8) EmptyString NotInUnion = (inr [], NotInUnion) /\
  buildCodec (TSlice TUint8) [] = Built (sliceCodec (uintCodec W8) (VInt 0) MaxUint32 MaxUint32) /\
  Encode f32_conv (sliceCodec (uintCodec W8) (VInt 0) MaxUint32 MaxUint32) (VSlice n (of_bytes s)) =
    (word_bytes (Z.of_nat (length s)) ++ concat (map (fun b => [0; 0; 0; b]) s), None).
Proof.
  split; [reflexivity|]. split; [reflexivity|]. split.
  - cbn [Encode]. rewrite bytes_of_of_bytes.
    destruct (Z.gtb_spec (Z.of_nat (length s)) MaxUint32); [lia|].
    rewrite EncodeOpaque_ok, word_bytes_signed by assumption. reflexivity.
  - split; [reflexivity|]. split; [reflexivity|].
    cbn [Encode]. replace (length (of_bytes s)) with (length s) by (symmetry; apply length_map).
    destruct (Z.gtb_spec (Z.of_nat (length s)) MaxUint32); [lia|].
    pose proof (encode_each_uint8 f32_conv s Hb) as E. cbn [Encode] in E. rewrite E.
    rewrite EncodeUnsignedInt_eq, word_bytes_signed. reflexivity.
Qed.

Lemma opaque_vs_untagged_bytes_witness :
  Forall (fun b => 0 <= b < 256) [1; 255] /\ Z.of_nat (length [1; 255]) <= MaxUint32 /\
  Encode (fun x => x) (sliceCodec (uintCodec W8) (VInt 0) MaxUint32 MaxUint32) (VSlice false (of_bytes [1; 255])) =
    ([0; 0; 0; 2; 0; 0; 0; 1; 0; 0; 0; 255], None).
Proof.
  assert (Hb : Forall (fun b => 0 <= b < 256) [1; 255]) by (repeat constructor; lia).
  split; [exact Hb|]. split; [vm_compute; discriminate|].
  destruct (opaque_vs_untagged_bytes (fun x => x) false [1; 255] Hb ltac:(vm_compute; discriminate))
    as [_ [_ [_ [_ [_ H]]]]].
  rewrite H. reflexivity.
Defined.

Lemma decode_each_stop (dec : value -> list Z -> D value) (ds : list value) :
  forall src xs err r, decode_each dec ds src = (xs, err, r) ->
  length xs = length ds /\
  (forall e, err = Some e -> exists k d x r0,
     ds !! k = Some d /\ xs !! k = Some x /\
     decode_each dec (take k ds) src = (take k xs, None, r0) /\
     dec d r0 = (x, Some e, r) /\ drop (S k) xs = drop (S k) ds).
Proof.
  induction ds as [|d ds IH]; intros src xs err r E; cbn [decode_each] in E.
  - injection E as <- <- <-. split; [reflexivity|]. discriminate.
  - destruct (dec d src) as [[x [e'|]] rest] eqn:Ed.
    + injection E as <- <- <-. split; [reflexivity|]. intros e He. injection He as ->.
      exists 0%nat, d, x, src. cbn. auto.
    + destruct (decode_each dec ds rest) as [[xs' e'] r'] eqn:E2. injection E as <- <- <-.
      destruct (IH _ _ _ _ E2) as [Hl Hk]. split; [cbn; congruence|].
      intros e He. destruct (Hk e He) as [k [d' [x' [r0 [Hd [Hx [Ht [Hdec Hdr]]]]]]]].
      exists (S k), d', x', r0. cbn [lookup list_lookup take drop decode_each].
      rewrite Ed, Ht. auto.
Qed.

(** X15: decoding into an array keeps its length; when it fails, the
    elements before the failing one are decoded without error from the
    start of the stream, the failing element reports the error where they
    stopped, and the elements after it keep the destination's contents. *)
Theorem array_decode_shape (f32_conv : Z -> Z) (elem : codec) (n : Z) (ds : list value) (src : list Z) :
  let '(v, err, r) := Decode f32_conv (arrayCodec elem n) (VArray ds) src in
  exists xs, v = VArray xs /\ length xs = length ds /\
  (forall e, err = Some e -> exists k d x r0,
     ds !! k = Some d /\ xs !! k = Some x /\
     decode_each (Decode f32_conv elem) (take k ds) src = (take k xs, None, r0) /\
     Decode f32_conv elem d r0 = (x, Some e, r) /\ drop (S k) xs = drop (S k) ds).
Proof.
  cbn [Decode]. destruct (decode_each (Decode f32_conv elem) ds src) as [[xs err] r] eqn:E.
  exists xs. split; [reflexivity|]. exact (decode_each_stop _ _ _ _ _ _ E).
Qed.

Lemma decode_fields_shape (dec : codec -> value -> list Z -> D value) (fs : list (nat * codec)) :
  forall ds src ds' err r, Forall (fun '(i, _) => (i < length ds)%nat) fs ->
  decode_fields dec fs ds src = (ds', err, r) ->
  length ds' = length ds /\ (err = None \/ exists u, err = Some (FieldError u)).
Proof.
  induction fs as [|[i fc] fs IH]; intros ds src ds' err r Hf E; cbn [decode_fields] in E.
  - injection E as <- <- <-. auto.
  - inversion Hf as [|? ? Hi Hr]; subst.
    destruct (lookup_lt_is_Some_2 ds i Hi) as [d Hd]. rewrite Hd in E.
    destruct (dec fc d src) as [[x [e|]] rest].
    + injection E as <- <- <-. rewrite length_insert. split; [reflexivity|].
      right. destruct e; eexists; reflexivity.
    + destruct (IH (<[i:=x]> ds) rest ds' err r) as [Hl He];
        [|exact E|rewrite Hl, length_insert; auto].
      eapply Forall_impl; [exact Hr|]. intros [j ?] Hj. rewrite length_insert. exact Hj.
Qed.

(** X16: decoding into a struct whose field indices are in range keeps the
    number of fields, and an error is reported wrapped in a FieldError. *)
Theorem struct_decode_shape (f32_conv : Z -> Z) (fs : list (nat * codec)) (ds : list value) (src : list Z)
    (Hf : Forall (fun '(i, _) => (i < length ds)%nat) fs) :
  let '(v, err, _) := Decode f32_conv (structCodec fs) (VStruct ds) src in
  exists ds', v = VStruct ds' /\ length ds' = length ds /\
  (err = None \/ exists u, err = Some (FieldError u)).
Proof.
  cbn [Decode]. destruct (decode_fields (Decode f32_conv) fs ds src) as [[ds' err] r] eqn:E.
  exists ds'. split; [reflexivity|]. exact (decode_fields_shape _ _ _ _ _ _ _ Hf E).
Qed.

Lemma struct_decode_shape_witness :
  Forall (fun '(i, _) => (i < length [VInt 0; VBool false])%nat) [(1%nat, boolCodec)] /\
  let '(v, err, _) := Decode (fun x => x) (structCodec [(1%nat, boolCodec)]) (VStruct [VInt 0; VBool false])
                        [0; 0; 0; 5] in
  exists ds', v = VStruct ds' /\ length ds' = length [VInt 0; VBool false] /\
  (err = None \/ exists u, err = Some (FieldError u)).
Proof.
  assert (Hf : Forall (fun '(i, _) => (i < length [VInt 0; VBool false])%nat) [(1%nat, boolCodec)])
    by (repeat constructor).
  split; [exact Hf|].
  exact (struct_decode_shape (fun x => x) [(1%nat, boolCodec)] [VInt 0; VBool false] [0; 0; 0; 5] Hf).
Defined.

(** X17: wrapping an error with WithFieldError keeps errors.Is true or false
    for every target that is not itself a FieldError. *)
Theorem field_error_keeps_is (e target : xerror) (Ht : forall u, target <> FieldError u) :
  exists w, WithFieldError (Some e) = Some w /\ errors_Is w target = errors_Is e target.
Proof.
  destruct e; eexists; (split; [reflexivity|]); try reflexivity;
    cbn [errors_Is]; destruct (xerror_eq_dec _ target) as [E|_];
    try (exfalso; exact (Ht _ (eq_sym E))); reflexivity.
Qed.

Lemma field_error_keeps_is_witness :
  (forall u, ErrLengthExceedsMax <> FieldError u) /\
  exists w, WithFieldError (Some (LengthError 9 4)) = Some w /\
            errors_Is w ErrLengthExceedsMax = errors_Is (LengthError 9 4) ErrLengthExceedsMax.
Proof.
  assert (Ht : forall u, ErrLengthExceedsMax <> FieldError u) by (intros u; discriminate).
  split; [exact Ht|]. exact (field_error_keeps_is (LengthError 9 4) ErrLengthExceedsMax Ht).
Defined.

(** ** Tag bytes *)

Lemma lor_shift_add (x y n : Z) : 0 <= n -> 0 <= y < 2 ^ n -> Z.lor (Z.shiftl x n) y = Z.shiftl x n + y.
Proof.
  intros Hn Hy.
  assert (H0 : Z.land (Z.shiftl x n) y = 0).
  { apply Z.bits_inj'. intros m Hm. rewrite Z.land_spec, Z.bits_0.
    destruct (Z.lt_ge_cases m n).
    - rewrite Z.shiftl_spec_low by lia. reflexivity.
    - rewrite <- (Z.mod_small y (2 ^ n)) by lia. rewrite Z.mod_pow2_bits_high by lia. apply andb_false_r. }
  rewrite <- Z.lxor_lor by exact H0. rewrite Z.add_nocarry_lxor by exact H0. reflexivity.
Qed.

Lemma valAt_formula (a b c d : Z) :
  0 <= a < 256 -> 0 <= b < 256 -> 0 <= c < 256 -> 0 <= d < 256 ->
  Z.lor (Z.lor (Z.shiftl a 24) (Z.shiftl b 16)) (Z.shiftl c 8) + d = ((a * 256 + b) * 256 + c) * 256 + d.
Proof.
  intros Ha Hb Hc Hd.
  replace (Z.shiftl a 24) with (Z.shiftl (Z.shiftl a 8) 16) by (rewrite Z.shiftl_shiftl by lia; reflexivity).
  rewrite <- Z.shiftl_lor, (lor_shift_add a b 8) by lia.
  replace (Z.shiftl (Z.shiftl a 8 + b) 16) with (Z.shiftl (Z.shiftl (Z.shiftl a 8 + b) 8) 8)
    by (rewrite Z.shiftl_shiftl by lia; reflexivity).
  rewrite <- Z.shiftl_lor, (lor_shift_add _ c 8) by lia.
  rewrite !Z.shiftl_mul_pow2 by lia. lia.
Qed.

Lemma valAt_word (pre rest : list Z) (v : Z) :
  TagBytes.valAt (pre ++ word_bytes v ++ rest) (length pre) = Some (v mod 2 ^ 32).
Proof.
  unfold TagBytes.valAt.
  rewrite nth_error_app2 by lia. replace (length pre + 3 - length pre)%nat with 3%nat by lia.
  cbn [word_bytes app nth_error].
  rewrite !app_nth2 by lia.
  replace (length pre - length pre)%nat with 0%nat by lia.
  replace (length pre + 1 - length pre)%nat with 1%nat by lia.
  replace (length pre + 2 - length pre)%nat with 2%nat by lia.
  replace (length pre + 3 - length pre)%nat with 3%nat by lia.
  cbn [word_bytes app nth].
  rewrite valAt_formula by (apply Z.mod_pos_bound; lia).
  rewrite <- (be_value_word v). unfold be_value, word_bytes. cbn [fold_left].
  rewrite Z.mod_small; [reflexivity|].
  pose proof (Z.mod_pos_bound (v / 2 ^ 24) 256). pose proof (Z.mod_pos_bound (v / 2 ^ 16) 256).
  pose proof (Z.mod_pos_bound (v / 2 ^ 8) 256). pose proof (Z.mod_pos_bound v 256). lia.
Qed.

Lemma Append_entry (t : TagBytes.tag) (e : tagent) :
  TagBytes.Append t (TagBytes.kind_code e) (TagBytes.ent_values e) = Some (t ++ TagBytes.ent_bytes e).
Proof. destruct e; reflexivity. Qed.

Lemma of_entries_eq (l : XDRTag) : TagBytes.of_entries l = Some (concat (map TagBytes.ent_bytes l)).
Proof.
  unfold TagBytes.of_entries. change (concat (map TagBytes.ent_bytes l)) with ([] ++ concat (map TagBytes.ent_bytes l)).
  generalize (@nil Z). induction l as [|e l IH]; intros t; cbn [fold_left map concat].
  - rewrite app_nil_r. reflexivity.
  - rewrite Append_entry, IH, app_assoc. reflexivity.
Qed.

Lemma length_words (vs : list Z) : length (concat (map word_bytes vs)) = (4 * length vs)%nat.
Proof. induction vs as [|v vs IH]; cbn [map concat]; [reflexivity|]. rewrite length_app, IH. cbn. lia. Qed.

Lemma valAt_word1 (k : Z) (rest : list Z) (v : Z) :
  TagBytes.valAt (k :: word_bytes v ++ rest) 1 = Some (v mod 2 ^ 32).
Proof. exact (valAt_word [k] rest v). Qed.

Lemma thisLen_entry (e : tagent) (rest : TagBytes.tag) :
  TagBytes.wf_entry e -> TagBytes.thisLen (TagBytes.ent_bytes e ++ rest) = Some (length (TagBytes.ent_bytes e)).
Proof.
  intros [_ Hn]. destruct e as [| | | | | | n | n | vs]; try reflexivity.
  cbn [TagBytes.ent_values length] in Hn. unfold TagBytes.thisLen, TagBytes.ent_bytes.
  rewrite <- app_comm_cons, <- app_assoc. cbn [TagBytes.kind_code].
  rewrite valAt_word1, Z.mod_small by lia. cbn [Z.ltb Z.compare Pos.compare Pos.compare_cont].
  rewrite Nat2Z.id. cbn [length]. rewrite length_app, length_words, word_bytes_length. f_equal. lia.
Qed.

Lemma Next_of_len (p rest : TagBytes.tag) :
  TagBytes.thisLen (p ++ rest) = Some (length p) -> TagBytes.Next (p ++ rest) = Some rest.
Proof.
  intros H. unfold TagBytes.Next. rewrite H, length_app.
  destruct (Nat.eqb_spec (length p + length rest) (length p)) as [E|E].
  - destruct rest; [reflexivity|cbn in E; lia].
  - destruct (Nat.ltb_spec (length p + length rest) (length p)); [lia|].
    rewrite drop_app_length. reflexivity.
Qed.

Lemma Next_entry (e : tagent) (rest : TagBytes.tag) :
  TagBytes.wf_entry e -> TagBytes.Next (TagBytes.ent_bytes e ++ rest) = Some rest.
Proof. intros H. apply Next_of_len, thisLen_entry, H. Qed.

Lemma Kind_entry (e : tagent) (rest : TagBytes.tag) :
  TagBytes.Kind (TagBytes.ent_bytes e ++ rest) = TagBytes.kind_code e.
Proof. destruct e; reflexivity. Qed.

Lemma Empty_entry (e : tagent) (rest : TagBytes.tag) :
  TagBytes.Empty (TagBytes.ent_bytes e ++ rest) = false.
Proof. destruct e; reflexivity. Qed.

Lemma valAt_words (vs : list Z) : forall (pre rest : list Z) (i : nat),
  Forall (fun v => 0 <= v < 2 ^ 32) vs -> (i < length vs)%nat ->
  TagBytes.valAt (pre ++ concat (map word_bytes vs) ++ rest) (length pre + 4 * i) = nth_error vs i.
Proof.
  induction vs as [|v vs IH]; intros pre rest i Hv Hi; cbn in Hi; [lia|].
  inversion Hv as [|? ? Hv0 Hvs]; subst. cbn [map concat]. rewrite <- app_assoc.
  destruct i as [|i].
  - rewrite Nat.add_0_r, valAt_word, Z.mod_small by lia. reflexivity.
  - rewrite app_assoc. replace (length pre + 4 * S i)%nat with (length (pre ++ word_bytes v) + 4 * i)%nat
      by (rewrite length_app, word_bytes_length; lia).
    apply IH; [exact Hvs|lia].
Qed.

(** X18: the byte encoding of XDRTag built with Append carries the entry
    model: its Kind is the first entry's kind byte, its Next is the tag of
    the remaining entries, and OnlyValue, ValueRange and Value give back the
    entry's values. *)
Theorem tag_bytes_layers (l : XDRTag) (Hwf : Forall TagBytes.wf_entry l) :
  exists b, TagBytes.of_entries l = Some b /\
  TagBytes.Kind b = TagBytes.kind_code (Kind l) /\
  TagBytes.Next b = TagBytes.of_entries (Next l) /\
  match l with
  | (Len n | MaxLen n) :: _ => TagBytes.OnlyValue b = Some n
  | UnionCases vs :: _ =>
      TagBytes.ValueRange b = Some (1%nat, S (length vs)) /\
      (forall i, (i < length vs)%nat -> TagBytes.Value b (S i) = nth_error vs i)
  | _ => True
  end.
Proof.
  rewrite of_entries_eq. eexists. split; [reflexivity|].
  destruct l as [|e l]; [repeat split; reflexivity|].
  inversion Hwf as [|? ? He Hl]; subst. cbn [map concat Kind Next tl].
  rewrite Kind_entry, Next_entry, of_entries_eq by exact He. split; [reflexivity|]. split; [reflexivity|].
  destruct He as [Hv Hn].
  destruct e as [| | | | | | n | n | vs]; try exact I.
  - inversion Hv; subst. unfold TagBytes.OnlyValue, TagBytes.ent_bytes. rewrite <- app_comm_cons.
    rewrite valAt_word1, Z.mod_small by lia. reflexivity.
  - inversion Hv; subst. unfold TagBytes.OnlyValue, TagBytes.ent_bytes. rewrite <- app_comm_cons.
    rewrite valAt_word1, Z.mod_small by lia. reflexivity.
  - cbn [TagBytes.ent_values length] in Hv, Hn. set (R := concat (map TagBytes.ent_bytes l)).
    unfold TagBytes.ent_bytes.
    rewrite <- app_comm_cons, <- app_assoc. split.
    + unfold TagBytes.ValueRange. rewrite valAt_word1, Z.mod_small, Nat2Z.id by lia.
      cbn [TagBytes.kind_code Z.ltb Z.compare Pos.compare Pos.compare_cont].
      destruct (Nat.leb_spec (length (200 :: word_bytes (Z.of_nat (length vs)) ++
                  concat (map word_bytes vs) ++ R)) (4 * (1 + length vs)))
        as [Hle|_]; [|reflexivity].
      cbn [length] in Hle. rewrite length_app, word_bytes_length, length_app, length_words in Hle. lia.
    + intros i Hi. unfold TagBytes.Value.
      replace (1 + 4 * S i)%nat with (length (200%Z :: word_bytes (Z.of_nat (length vs))) + 4 * i)%nat
        by (cbn [length]; rewrite word_bytes_length; lia).
      exact (valAt_words vs (200 :: word_bytes (Z.of_nat (length vs))) R i Hv Hi).
Qed.

Lemma tag_bytes_layers_witness :
  Forall TagBytes.wf_entry [UnionCases [3; 70000]; Opt] /\
  exists b, TagBytes.of_entries [UnionCases [3; 70000]; Opt] = Some b /\
  TagBytes.Kind b = TagBytes.kind_code (Kind [UnionCases [3; 70000]; Opt]) /\
  TagBytes.Next b = TagBytes.of_entries (Next [UnionCases [3; 70000]; Opt]) /\
  TagBytes.ValueRange b = Some (1%nat, 3%nat) /\
  (forall i, (i < 2)%nat -> TagBytes.Value b (S i) = nth_error [3; 70000] i).
Proof.
  assert (Hwf : Forall TagBytes.wf_entry [UnionCases [3; 70000]; Opt]).
  { unfold TagBytes.wf_entry. repeat constructor; cbn; lia. }
  split; [exact Hwf|]. exact (tag_bytes_layers [UnionCases [3; 70000]; Opt] Hwf).
Defined.

Lemma drop_noops_app (a b : list tagent) :
  drop_noops (a ++ b) = match drop_noops a with [] => drop_noops b | d => d ++ b end.
Proof. induction a as [|x a IH]; [reflexivity|]. destruct x; cbn; try reflexivity. exact IH. Qed.

Lemma Trimmed_cons (x : tagent) (l : XDRTag) :
  Trimmed (x :: l) = if is_Noop x && match Trimmed l with [] => true | _ => false end then [] else x :: Trimmed l.
Proof.
  unfold Trimmed. cbn [rev]. rewrite drop_noops_app.
  destruct (drop_noops (rev l)) as [|d ds] eqn:E.
  - destruct x; reflexivity.
  - rewrite rev_app_distr. cbn [rev app].
    assert (N : rev ds ++ [d] <> []) by (intros F; apply app_eq_nil in F; destruct F; discriminate).
    destruct (rev ds ++ [d]) as [|a b]; [congruence|]. destruct x; reflexivity.
Qed.

Lemma Trimmed_prefix (l : XDRTag) : exists s, l = Trimmed l ++ s.
Proof.
  induction l as [|x l [s IH]]; [exists []; reflexivity|]. rewrite Trimmed_cons.
  destruct (is_Noop x && match Trimmed l with [] => true | _ => false end).
  - exists (x :: l). reflexivity.
  - exists s. cbn. rewrite <- IH. reflexivity.
Qed.

Lemma length_entries (l : XDRTag) : (length l <= length (concat (map TagBytes.ent_bytes l)))%nat.
Proof.
  induction l as [|e l IH]; [cbn; lia|]. cbn [map concat]. rewrite length_app.
  assert (1 <= length (TagBytes.ent_bytes e))%nat by (destruct e; cbn; lia). cbn [length]. lia.
Qed.

Lemma trim_loop_entries (l : XDRTag) : forall fuel t e mark,
  Forall TagBytes.wf_entry l -> (length l < fuel)%nat ->
  TagBytes.trim_loop fuel t (concat (map TagBytes.ent_bytes l)) e mark =
  Some (take (match Trimmed l with [] => mark | tr => e + length (concat (map TagBytes.ent_bytes tr)) end) t).
Proof.
  induction l as [|x l IH]; intros fuel t e mark Hwf Hf; (destruct fuel as [|f]; [cbn in Hf; lia|]).
  - reflexivity.
  - inversion Hwf as [|? ? Hx Hl]; subst. cbn [map concat TagBytes.trim_loop].
    rewrite Empty_entry, thisLen_entry, Next_entry by exact Hx. rewrite Kind_entry.
    rewrite IH by (exact Hl || (cbn in Hf; lia)). rewrite Trimmed_cons.
    destruct (Trimmed l) as [|y tr].
    + destruct x; cbn [is_Noop andb TagBytes.kind_code Z.eqb]; try reflexivity; cbn [map concat]; rewrite app_nil_r; reflexivity.
    + destruct x; cbn [is_Noop andb TagBytes.kind_code Z.eqb map concat]; rewrite ?length_app; f_equal; f_equal; try lia.
Qed.

(** X19: Trimmed on the tag bytes removes exactly the trailing Noop entries,
    as Trimmed on the entry model does. *)
Theorem tag_bytes_trimmed (l : XDRTag) (Hwf : Forall TagBytes.wf_entry l) :
  exists b, TagBytes.of_entries l = Some b /\ TagBytes.Trimmed b = TagBytes.of_entries (Trimmed l).
Proof.
  rewrite !of_entries_eq. eexists. split; [reflexivity|]. unfold TagBytes.Trimmed.
  rewrite trim_loop_entries by (exact Hwf || (pose proof (length_entries l); lia)).
  destruct (Trimmed_prefix l) as [s Hs]. f_equal.
  rewrite Hs at 2. rewrite map_app, concat_app.
  destruct (Trimmed l) as [|y tr]; [reflexivity|].
  rewrite Nat.add_0_l, take_app_length. reflexivity.
Qed.

Lemma tag_bytes_trimmed_witness :
  Forall TagBytes.wf_entry [Noop; Len 5; Noop] /\
  exists b, TagBytes.of_entries [Noop; Len 5; Noop] = Some b /\
  TagBytes.Trimmed b = TagBytes.of_entries (Trimmed [Noop; Len 5; Noop]).
Proof.
  assert (Hwf : Forall TagBytes.wf_entry [Noop; Len 5; Noop]).
  { unfold TagBytes.wf_entry. repeat constructor; cbn; lia. }
  split; [exact Hwf|]. exact (tag_bytes_trimmed [Noop; Len 5; Noop] Hwf).
Defined.

(** X20: Prepend puts one entry in front of any tag: the result has the
    given kind and its Next is the original tag; Prepend panics when the
    number of values does not fit the kind. *)
Theorem tag_bytes_prepend (t : TagBytes.tag) (k : Z) (vs : list Z) (Hn : Z.of_nat (length vs) < 2 ^ 32) :
  match TagBytes.Prepend t k vs with
  | Some nt => TagBytes.Kind nt = k /\ TagBytes.Next nt = Some t
  | None => (k < 128 /\ vs <> []) \/ (128 <= k < 192 /\ length vs <> 1%nat)
  end.
Proof.
  unfold TagBytes.Prepend, TagBytes.Append.
  destruct (Z.ltb_spec k 128); [|destruct (Z.ltb_spec k 192)].
  - destruct vs as [|v vs]; [|left; split; [lia|discriminate]].
    split; [reflexivity|]. apply (Next_of_len [k] t).
    unfold TagBytes.thisLen. cbn [app]. destruct (Z.ltb_spec k 128); [reflexivity|lia].
  - destruct vs as [|v [|w vs]]; [right; cbn; split; [lia|discriminate]| |right; cbn; split; [lia|discriminate]].
    split; [reflexivity|]. apply (Next_of_len (k :: word_bytes v) t).
    unfold TagBytes.thisLen. cbn [app]. destruct (Z.ltb_spec k 128); [lia|].
    destruct (Z.ltb_spec k 192); [|lia]. reflexivity.
  - split; [reflexivity|]. cbn [app].
    apply (Next_of_len (k :: word_bytes (Z.of_nat (length vs)) ++ concat (map word_bytes vs)) t).
    unfold TagBytes.thisLen. rewrite <- app_comm_cons, <- app_assoc.
    destruct (Z.ltb_spec k 128); [lia|]. destruct (Z.ltb_spec k 192); [lia|].
    rewrite valAt_word1, Z.mod_small, Nat2Z.id by lia.
    cbn [length]. rewrite length_app, length_words, word_bytes_length. f_equal. lia.
Qed.

Lemma tag_bytes_prepend_witness :
  Z.of_nat (length [4; 5]) < 2 ^ 32 /\
  match TagBytes.Prepend [2] 200 [4; 5] with
  | Some nt => TagBytes.Kind nt = 200 /\ TagBytes.Next nt = Some [2]
  | None => (200 < 128 /\ [4; 5] <> []) \/ (128 <= 200 < 192 /\ length [4; 5] <> 1%nat)
  end.
Proof.
  split; [simpl; lia|]. exact (tag_bytes_prepend [2] 200 [4; 5] ltac:(simpl; lia)).
Defined.

(** ** Error texts *)

(** X21: an error passed up through nested struct and union codecs stays
    wrapped once: the underlying error is the original one, the paths are
    joined by spaces with the outermost first, and the message carries a
    single xdr: prefix. *)
Theorem field_error_nesting (m : string) (pss : list (list string)) (cs : list string)
    (Hc : Forall2 (fun ps c => ErrorText.combine ps = Some c) pss cs) (Hne : pss <> []) :
  ErrorText.wrap (ErrorText.Plain m) pss = Some (Some (ErrorText.FieldErr (ErrorText.Plain m) (ErrorText.Join cs " "))) /\
  ErrorText.Error (ErrorText.FieldErr (ErrorText.Plain m) (ErrorText.Join cs " ")) =
    ("xdr: " ++ TrimPrefix m "xdr: " ++ " (at " ++ ErrorText.Join cs " " ++ ")")%string.
Proof.
  split; [|reflexivity].
  induction Hc as [|ps c pss cs Hpc Hr IH]; [congruence|].
  cbn [ErrorText.wrap]. destruct pss as [|ps' pss].
  - inversion Hr; subst. cbn [ErrorText.wrap ErrorText.WithFieldError]. rewrite Hpc. reflexivity.
  - rewrite IH by discriminate. cbn [ErrorText.WithFieldError]. rewrite Hpc.
    inversion Hr; subst. reflexivity.
Qed.

Lemma field_error_nesting_witness :
  Forall2 (fun ps c => ErrorText.combine ps = Some c)
    [["Outer"; "f"]; ["Inner"; "g"]]%string ["Outer.f"; "Inner.g"]%string /\
  ErrorText.wrap (ErrorText.Plain "xdr: Length incorrect") [["Outer"; "f"]; ["Inner"; "g"]]%string =
    Some (Some (ErrorText.FieldErr (ErrorText.Plain "xdr: Length incorrect") "Outer.f Inner.g")).
Proof.
  assert (Hc : Forall2 (fun ps c => ErrorText.combine ps = Some c)
                 [["Outer"; "f"]; ["Inner"; "g"]]%string ["Outer.f"; "Inner.g"]%string)
    by (repeat constructor).
  split; [exact Hc|].
  destruct (field_error_nesting "xdr: Length incorrect" _ _ Hc ltac:(discriminate)) as [H _].
  exact H.
Defined.

